(** * flyXC runtime tracks: a shallow embedding of [common/src/runtime-track.ts]

    The development follows the source file top to bottom: the JavaScript
    values the code computes with (numbers, arrays), the protocol buffer
    records it reads, the differential codec of [./math], then the functions
    of [runtime-track.ts] themselves, and finally the properties of the
    specification, stated over these definitions.  The distance function of
    geolib is a parameter of the development. *)

From Stdlib Require Import ZArith QArith Qround Qabs Lqa Lia String Ascii.
From Stdlib Require Import DecimalString DecimalPos DecimalN.
From stdpp Require Import base list strings.

(** ** JavaScript numbers

    A JavaScript number is a binary64 float.  Finite values are modelled as
    exact rationals, kept in lowest terms ([Qred]) so that equal results are
    equal terms; the three special values are kept: [NaN] (also what an
    [undefined] array read becomes in arithmetic), [Infinity] and
    [-Infinity].  Two things are idealised: the rounding of binary64
    arithmetic (sums, differences and products are exact, as the program's
    are on whole numbers up to [2^53]; quotients are exact too, except where
    the code prints one: [toFixed] first rounds its argument to binary64,
    with an unbounded exponent), and the sign of zero (there is one zero,
    and it is positive when it divides). *)
Module JS.

Inductive num : Type :=
| Fin (q : Q)
| PosInf
| NegInf
| NaN.

Definition is_fin (x : num) : Prop :=
  match x with Fin _ => True | _ => False end.

(** Numeric equality: rationals are compared by value, not by representation. *)
Definition eqv (x y : num) : Prop :=
  match x, y with
  | Fin a, Fin b => (a == b)%Q
  | PosInf, PosInf | NegInf, NegInf | NaN, NaN => True
  | _, _ => False
  end.

(** The order of the non-NaN numbers. *)
Definition le (x y : num) : Prop :=
  match x, y with
  | NaN, _ | _, NaN => False
  | NegInf, _ => True
  | _, PosInf => True
  | Fin a, Fin b => (a <= b)%Q
  | _, _ => False
  end.

Definition of_Z (z : Z) : num := Fin (inject_Z z).

Definition zero : num := of_Z 0.

(** [x + y] *)
Definition add (x y : num) : num :=
  match x, y with
  | NaN, _ | _, NaN => NaN
  | Fin a, Fin b => Fin (Qred (a + b))
  | PosInf, NegInf | NegInf, PosInf => NaN
  | PosInf, _ | _, PosInf => PosInf
  | NegInf, _ | _, NegInf => NegInf
  end.

(** [x - y] *)
Definition sub (x y : num) : num :=
  match x, y with
  | NaN, _ | _, NaN => NaN
  | Fin a, Fin b => Fin (Qred (a - b))
  | PosInf, PosInf | NegInf, NegInf => NaN
  | PosInf, _ | _, NegInf => PosInf
  | NegInf, _ | _, PosInf => NegInf
  end.

(** The infinity of the sign of [a] times the sign of a positive ([pos])
    or negative infinity; zero times infinity is NaN. *)
Definition signed_inf (a : Q) (pos : bool) : num :=
  match (a ?= 0)%Q with
  | Eq => NaN
  | Gt => if pos then PosInf else NegInf
  | Lt => if pos then NegInf else PosInf
  end.

(** [x * y] *)
Definition mul (x y : num) : num :=
  match x, y with
  | NaN, _ | _, NaN => NaN
  | Fin a, Fin b => Fin (Qred (a * b))
  | Fin a, PosInf | PosInf, Fin a => signed_inf a true
  | Fin a, NegInf | NegInf, Fin a => signed_inf a false
  | PosInf, PosInf | NegInf, NegInf => PosInf
  | PosInf, NegInf | NegInf, PosInf => NegInf
  end.

(** [x / y]; a finite number divided by zero is an infinity of its sign,
    zero by zero is NaN. *)
Definition div (x y : num) : num :=
  match x, y with
  | NaN, _ | _, NaN => NaN
  | Fin a, Fin b =>
      if Qeq_bool b 0 then signed_inf a true else Fin (Qred (a / b))
  | Fin _, _ => Fin 0
  | PosInf, Fin b => if Qle_bool 0 b then PosInf else NegInf
  | NegInf, Fin b => if Qle_bool 0 b then NegInf else PosInf
  | _, _ => NaN
  end.

(** [x > y]: false as soon as one side is NaN. *)
Definition gtb (x y : num) : bool :=
  match x, y with
  | NaN, _ | _, NaN => false
  | Fin a, Fin b => negb (Qle_bool a b)
  | PosInf, PosInf | NegInf, _ => false
  | PosInf, _ => true
  | Fin _, NegInf => true
  | Fin _, PosInf => false
  end.

(** [Math.round(x)]: the nearest integer, a tie going up. *)
Definition Math_round (x : num) : num :=
  match x with
  | Fin a => of_Z (Qfloor (a + (1 # 2)))
  | _ => x
  end.

(** [round_half_even p q] is the integer nearest to [p / q], a tie going
    to the even one. *)
Definition round_half_even (p q : Z) : Z :=
  let fl := (p / q)%Z in
  match (2 * (p mod q) ?= q)%Z with
  | Lt => fl
  | Gt => (fl + 1)%Z
  | Eq => if Z.even fl then fl else (fl + 1)%Z
  end.

(** [n / d / 2^e] as a fraction of integers. *)
Definition scale2 (n d e : Z) : Z * Z :=
  if (0 <=? e)%Z then (n, (d * 2 ^ e)%Z) else ((n * 2 ^ (- e))%Z, d).

(** The exponent [e] of the last bit of a 53-bit significand of [n / d]:
    [2^52 <= n / d / 2^e < 2^53]. *)
Definition binade (n d : Z) : Z :=
  let e0 := (Z.log2 n - Z.log2 d - 52)%Z in
  let '(p0, q0) := scale2 n d e0 in
  if (p0 <? 2 ^ 52 * q0)%Z then (e0 - 1)%Z else e0.

(** The multiple of [2^e] nearest to [n / d]. *)
Definition nearest_at (n d e : Z) : Q :=
  let '(p, q) := scale2 n d e in
  let m := round_half_even p q in
  if (0 <=? e)%Z then inject_Z (m * 2 ^ e) else (m # Z.to_pos (2 ^ (- e))).

(** The binary64 number nearest to a rational, a tie going to the even
    significand: the sign, and the multiple of [2^e] nearest to the absolute
    value, for [e] the exponent of the last bit of its 53-bit significand.
    The exponent is not bounded. *)
Definition round53 (q : Q) : Q :=
  let q := Qred q in
  let n := Z.abs (Qnum q) in
  let d := Zpos (Qden q) in
  if (n =? 0)%Z then 0
  else
    let v := nearest_at n d (binade n d) in
    Qred (if (Qnum q <? 0)%Z then - v else v).

(** [Number(x.toFixed(1))], for [x] the binary64 number nearest to the
    modelled value (the quotient the code divides out is rounded to binary64
    before it is printed).  [toFixed] prints the multiple of one tenth
    nearest to the exact value of [x], a tie going away from zero (the sign
    is split off first); from [1e21] on it prints the number itself.
    [Number] reads the digits back as the nearest binary64 number. *)
Definition toFixed1 (x : num) : num :=
  match x with
  | Fin a =>
      let x := round53 a in
      if Qle_bool (inject_Z (10 ^ 21)) (Qabs x) then Fin x
      else
        let n := Qfloor (Qabs x * 10 + (1 # 2)) in
        Fin (round53 (inject_Z (if Qle_bool 0 x then n else - n) / 10))
  | _ => x
  end.

(** One step of [Math.max]: NaN wins, otherwise the larger number. *)
Definition max2 (hi x : num) : num :=
  match hi, x with
  | NaN, _ | _, NaN => NaN
  | _, _ => if gtb x hi then x else hi
  end.

Definition min2 (lo x : num) : num :=
  match lo, x with
  | NaN, _ | _, NaN => NaN
  | _, _ => if gtb lo x then x else lo
  end.

(** [Math.max(...xs)] starts from [-Infinity], [Math.min(...xs)] from
    [Infinity]. *)
Definition Math_max (xs : list num) : num := fold_left max2 xs NegInf.
Definition Math_min (xs : list num) : num := fold_left min2 xs PosInf.

(** *** Arrays of numbers *)

(** [a[i]] read as a number: a missing element is [undefined], which
    arithmetic turns into NaN. *)
Definition get (a : list num) (i : nat) : num := default NaN (a !! i).

(** [a[i] = v]: in range the element is replaced; past the end the array
    grows, the skipped positions being holes (read as [undefined]). *)
Definition set (a : list num) (i : nat) (v : num) : list num :=
  if decide (i < length a)%nat then <[i:=v]> a
  else a ++ replicate (i - length a) NaN ++ [v].

(** [new Array(n).fill(v)] *)
Definition Array_fill (n : nat) (v : num) : list num := replicate n v.

(** [for (let i = from; i < to; i++) body], with no [break] in the body. *)
Definition for_range {S : Type} (from to : nat) (body : nat → S → S) (s : S) : S :=
  fold_left (λ s i, body i s) (seq from (to - from)) s.

End JS.

Declare Scope js_scope.
Delimit Scope js_scope with js.
Bind Scope js_scope with JS.num.
Infix "+" := JS.add : js_scope.
Infix "-" := JS.sub : js_scope.
Infix "*" := JS.mul : js_scope.
Infix "/" := JS.div : js_scope.
Infix ">?" := JS.gtb (at level 70, no associativity) : js_scope.
Infix "≤" := JS.le : js_scope.
Infix "≈" := JS.eqv (at level 70, no associativity) : js_scope.

(** ** Exceptions

    The only exception the functions below can raise themselves is the
    [TypeError] of reading a property of [undefined]. *)
Inductive error : Type := TypeError.

Inductive result (A : Type) : Type :=
| Ok (a : A)
| Throw (e : error).
Arguments Ok {A} a.
Arguments Throw {A} e.

#[export] Instance result_ret : MRet result := λ A a, Ok a.
#[export] Instance result_bind : MBind result := λ A B f m,
  match m with Ok a => f a | Throw e => Throw e end.

(** [xs.forEach((x, i) => body)] where the body updates a state or throws:
    the first exception ends the iteration. *)
Fixpoint forEach_from {A S : Type} (i : nat) (body : S → A → nat → result S)
    (xs : list A) (s : S) : result S :=
  match xs with
  | [] => Ok s
  | x :: xs => s' ← body s x i; forEach_from (Datatypes.S i) body xs s'
  end.

Definition forEach {A S : Type} (body : S → A → nat → result S)
    (xs : list A) (s : S) : result S :=
  forEach_from 0 body xs s.

(** ** The records of [protos/track]

    Only the fields [runtime-track.ts] touches are kept.  The binary
    containers of a group ([trackGroupBin] and the two overlays) are held
    already decoded: [fromBinary] belongs to the generated protocol buffer
    code.  A container that is absent is [None]. *)
Module protos.

Record Track : Type := {
  pilot : string;
  lat : list JS.num;
  lon : list JS.num;
  alt : list JS.num;
  timeSec : list JS.num;
}.

(** [altitudes] is [None] when the field does not hold an array
    ([Array.isArray] is false). *)
Record GroundAltitude : Type := {
  altitudes : option (list JS.num);
}.

Record Airspaces : Type := {
  startSec : list JS.num;
  endSec : list JS.num;
  name : list string;
}.

Record MetaTrackGroup : Type := {
  id : Z;
  numPostprocess : Z;
  trackGroupBin : option (list Track);
  groundAltitudeGroupBin : option (list GroundAltitude);
  airspacesGroupBin : option (list Airspaces);
}.

End protos.

(** ** The differential codec of [./math] *)
Module math.
Import JS.
Local Open Scope js_scope.

(** The optional snap to an integer of [diffEncodeArray]. *)
Definition quantize (round : bool) (x : num) : num :=
  if round then Math_round x else x.

(** Modelled from the spec: [diffEncodeArray] of [./math], which is not
    part of the sources at hand.  Element 0 is the scaled, optionally rounded
    first value; element [i > 0] is the same transform applied to
    [values[i] - values[i-1]], the delta of the unscaled values. *)
Fixpoint encode_from (prev : option num) (scale : num) (round : bool)
    (values : list num) : list num :=
  match values with
  | [] => []
  | v :: rest =>
      let delta := match prev with None => v | Some p => v - p end in
      quantize round (delta * scale) :: encode_from (Some v) scale round rest
  end.

Definition diffEncodeArray (values : list num) (scale : num) (round : bool) : list num :=
  encode_from None scale round values.

(** Modelled from the spec: [diffDecodeArray] of [./math].  Element [i] is
    the running sum of the stored deltas up to [i], divided by [scale]. *)
Fixpoint decode_from (sum : num) (scale : num) (values : list num) : list num :=
  match values with
  | [] => []
  | delta :: rest =>
      let sum := sum + delta in
      sum / scale :: decode_from sum scale rest
  end.

Definition diffDecodeArray (values : list num) (scale : num) : list num :=
  decode_from zero scale values.

(** The default arguments of both functions. *)
Definition default_scale : num := of_Z 1.
Definition default_round : bool := true.

End math.

(** ** Strings of integers

    Track ids are built from integer-valued numbers (a datastore id and an
    array index), so numbers that end up in strings are modelled as [Z]. *)
Module Str.
Local Open Scope string_scope.

(** The decimal digits of a natural number. *)
Definition digits (n : N) : string := NilEmpty.string_of_uint (N.to_uint n).

Fixpoint rev_strip_zeros (s : string) : string :=
  match s with
  | String "0" rest => rev_strip_zeros rest
  | _ => s
  end.

Fixpoint rev (s acc : string) : string :=
  match s with
  | "" => acc
  | String c rest => rev rest (String c acc)
  end.

(** The digits without the zeros that end them. *)
Definition strip_trailing_zeros (s : string) : string :=
  rev (rev_strip_zeros (rev s "")) "".

(** [String(x)] for a natural number [x] (ECMAScript [Number::toString]):
    plain digits below [10^21]; from there on the exponent form, the
    significant digits with a point after the first one, then [e+] and the
    exponent. *)
Definition of_N (n : N) : string :=
  let ds := digits n in
  if (n <? 10 ^ 21)%N then ds
  else
    match strip_trailing_zeros ds with
    | "" => ds
    | String d "" => String d "" ++ "e+" ++ digits (N.of_nat (String.length ds - 1))
    | String d frac =>
        String d "" ++ "." ++ frac ++ "e+" ++ digits (N.of_nat (String.length ds - 1))
    end.

(** [String(x)] for an integer [x]. *)
Definition of_Z (z : Z) : string :=
  if (z <? 0)%Z then "-" ++ of_N (Z.to_N (- z)) else of_N (Z.to_N z).

(** [\d] *)
Definition is_digit (c : ascii) : bool :=
  (48 <=? nat_of_ascii c)%nat && (nat_of_ascii c <=? 57)%nat.

(** The longest run of digits that starts [s], and what follows it. *)
Fixpoint span_digits (s : string) : string * string :=
  match s with
  | "" => ("", "")
  | String c rest =>
      if is_digit c then
        let '(ds, tail) := span_digits rest in (String c ds, tail)
      else ("", s)
  end.

(** [s.match(/^(\d+)-/)]: the capture group of the match, if any.  [\d+] is
    greedy, and giving digits back cannot help: the character after a
    shorter run is a digit, not the dash. *)
Definition match_digits_dash (s : string) : option string :=
  match span_digits s with
  | (String c ds, String "-" _) => Some (String c ds)
  | _ => None
  end.

(** [Number(ds)] for a string of digits. *)
Fixpoint Number_from (acc : N) (ds : string) : N :=
  match ds with
  | "" => acc
  | String c rest => Number_from (10 * acc + (N.of_nat (nat_of_ascii c) - 48))%N rest
  end.

Definition Number (ds : string) : Z := Z.of_N (Number_from 0 ds).

End Str.

(** ** [runtime-track.ts] *)

Module LatLon.
Record t : Type := { lat : JS.num; lon : JS.num }.
End LatLon.

(** A track used by the runtime. *)
Module RuntimeTrack.
Record t : Type := {
  id : string;
  isPostProcessed : bool;
  name : string;
  lat : list JS.num;
  lon : list JS.num;
  lookAtLat : list JS.num;
  lookAtLon : list JS.num;
  alt : list JS.num;
  gndAlt : list JS.num;
  vx : list JS.num;
  vz : list JS.num;
  timeSec : list JS.num;
  heading : list JS.num;
  maxAlt : JS.num;
  minAlt : JS.num;
  maxTimeSec : JS.num;
  minTimeSec : JS.num;
  maxLat : JS.num;
  minLat : JS.num;
  maxLon : JS.num;
  minLon : JS.num;
  maxVx : JS.num;
  minVx : JS.num;
  maxVz : JS.num;
  minVz : JS.num;
  maxDistance : JS.num;
  airspaces : option protos.Airspaces;
}.

(** [track.gndAlt = v] *)
Definition set_gndAlt (track : t) (v : list JS.num) : t :=
  {| id := id track; isPostProcessed := isPostProcessed track; name := name track;
     lat := lat track; lon := lon track;
     lookAtLat := lookAtLat track; lookAtLon := lookAtLon track;
     alt := alt track; gndAlt := v; vx := vx track; vz := vz track;
     timeSec := timeSec track; heading := heading track;
     maxAlt := maxAlt track; minAlt := minAlt track;
     maxTimeSec := maxTimeSec track; minTimeSec := minTimeSec track;
     maxLat := maxLat track; minLat := minLat track;
     maxLon := maxLon track; minLon := minLon track;
     maxVx := maxVx track; minVx := minVx track;
     maxVz := maxVz track; minVz := minVz track;
     maxDistance := maxDistance track; airspaces := airspaces track |}.

(** [track.airspaces = v] *)
Definition set_airspaces (track : t) (v : protos.Airspaces) : t :=
  {| id := id track; isPostProcessed := isPostProcessed track; name := name track;
     lat := lat track; lon := lon track;
     lookAtLat := lookAtLat track; lookAtLon := lookAtLon track;
     alt := alt track; gndAlt := gndAlt track; vx := vx track; vz := vz track;
     timeSec := timeSec track; heading := heading track;
     maxAlt := maxAlt track; minAlt := minAlt track;
     maxTimeSec := maxTimeSec track; minTimeSec := minTimeSec track;
     maxLat := maxLat track; minLat := minLat track;
     maxLon := maxLon track; minLon := minLon track;
     maxVx := maxVx track; minVx := minVx track;
     maxVz := maxVz track; minVz := minVz track;
     maxDistance := maxDistance track; airspaces := Some v |}.
End RuntimeTrack.

Import JS.
Local Open Scope js_scope.

(** Creates a runtime track id from the datastore id and the group index. *)
Definition createTrackId (groupId groupIndex : Z) : string :=
  (Str.of_Z groupId ++ "-" ++ Str.of_Z groupIndex)%string.

(** Extract the group id from the track id. *)
Definition extractGroupId (trackId : string) : Z :=
  match Str.match_digits_dash trackId with
  | Some m1 => Str.Number m1
  | None => (-1)%Z
  end.

(** The constants of the file. *)
Definition n1e5 : num := of_Z 100000.
Definition n3_6 : num := Fin (18 # 5).

(** Differential encoding of a track. *)
Definition diffEncodeTrack (track : protos.Track) : protos.Track :=
  let lon := math.diffEncodeArray (protos.lon track) n1e5 math.default_round in
  let lat := math.diffEncodeArray (protos.lat track) n1e5 math.default_round in
  let timeSec := math.diffEncodeArray (protos.timeSec track) (of_Z 1) false in
  let alt := math.diffEncodeArray (protos.alt track) math.default_scale math.default_round in
  {| protos.pilot := protos.pilot track;
     protos.lat := lat; protos.lon := lon; protos.alt := alt; protos.timeSec := timeSec |}.

(** Differential decoding of a track. *)
Definition diffDecodeTrack (track : protos.Track) : protos.Track :=
  let lon := math.diffDecodeArray (protos.lon track) n1e5 in
  let lat := math.diffDecodeArray (protos.lat track) n1e5 in
  let timeSec := math.diffDecodeArray (protos.timeSec track) math.default_scale in
  let alt := math.diffDecodeArray (protos.alt track) math.default_scale in
  {| protos.pilot := protos.pilot track;
     protos.lat := lat; protos.lon := lon; protos.alt := alt; protos.timeSec := timeSec |}.

(** Differential decoding of airspaces. *)
Definition diffDecodeAirspaces (asp : protos.Airspaces) : protos.Airspaces :=
  {| protos.startSec := math.diffDecodeArray (protos.startSec asp) math.default_scale;
     protos.endSec := math.diffDecodeArray (protos.endSec asp) math.default_scale;
     protos.name := protos.name asp |}.

(** The averaging loop of both speeds,
    [for (let avg = 1; i + avg < trackLen && avg < cap; avg++)
       { distance += dist[i]; timeSec += deltaSec[i]; if (timeSec > limit) break; }],
    entered with the current [avg], [distance] and [timeSec]; it returns the
    two totals.  [fuel] bounds the number of iterations. *)
Fixpoint window (fuel : nat) (trackLen cap : nat) (limit : num)
    (dist deltaSec : list num) (i avg : nat) (distance timeSec : num) : num * num :=
  match fuel with
  | O => (distance, timeSec)
  | S fuel =>
      if bool_decide (i + avg < trackLen)%nat && bool_decide (avg < cap)%nat then
        let distance := distance + get dist i in
        let timeSec := timeSec + get deltaSec i in
        if timeSec >? limit then (distance, timeSec)
        else window fuel trackLen cap limit dist deltaSec i (S avg) distance timeSec
      else (distance, timeSec)
  end.

(** altitude is in meter, time is in seconds. *)
Definition computeVerticalSpeed (alt timeSec : list num) : list num :=
  let trackLen := length alt in
  (* Pre-computes values to save time. *)
  let '(distZ, deltaSec) :=
    for_range 1 trackLen (λ i '(distZ, deltaSec),
        let distZ := set distZ i (get alt i - get alt (i - 1)) in
        let deltaSec := set deltaSec i (get timeSec i - get timeSec (i - 1)) in
        (distZ, deltaSec))
      ([zero], [zero]) in
  for_range 0 trackLen (λ i vz,
      (* Compute vz. *)
      let '(distance, timeSec) :=
        window 35 trackLen 35 (of_Z 30) distZ deltaSec i 1 zero zero in
      set vz i (if timeSec >? zero then toFixed1 (distance / timeSec) else zero))
    [].

(** Add the ground altitude to a runtime track.  [track] is what the caller
    passes, which is [undefined] ([None]) when it reads past the end of its
    array of tracks.  The condition is evaluated left to right:
    [Array.isArray(altitudes)] first, and only then [track.lat.length],
    which throws on [undefined].  The track is updated in place; the model
    returns the updated track. *)
Definition addGroundAltitude (track : option RuntimeTrack.t)
    (gndAlt : protos.GroundAltitude) : result (option RuntimeTrack.t) :=
  match protos.altitudes gndAlt with
  | Some altitudes =>
      match track with
      | None => Throw TypeError
      | Some t =>
          if bool_decide (length altitudes = length (RuntimeTrack.lat t)) then
            Ok (Some (RuntimeTrack.set_gndAlt t
                        (math.diffDecodeArray altitudes math.default_scale)))
          else Ok (Some t)
      end
  | None => Ok track
  end.

(** Add the airspaces to a runtime track: the assignment to a property of
    [undefined] throws. *)
Definition addAirspaces (track : option RuntimeTrack.t)
    (airspaces : protos.Airspaces) : result (option RuntimeTrack.t) :=
  match track with
  | None => Throw TypeError
  | Some t => Ok (Some (RuntimeTrack.set_airspaces t (diffDecodeAirspaces airspaces)))
  end.

(** [rtTracks[i]] holds a reference: a track updated in place is the track
    of the array. *)
Definition store (rtTracks : list RuntimeTrack.t) (i : nat)
    (track : option RuntimeTrack.t) : list RuntimeTrack.t :=
  match track with
  | Some t => <[i:=t]> rtTracks
  | None => rtTracks
  end.

Section WithDistance.

(** [getDistance] of geolib: the distance in meters between two points. *)
Variable getDistance : LatLon.t → LatLon.t → num.

(** The first loop of [protoToRuntimeTrack]: the per-step distances and
    durations, with the point of the previous iteration carried along. *)
Definition precompute (track : protos.Track) (trackLen : nat)
    : list num * list num * list num * LatLon.t :=
  let previousLatLon :=
    {| LatLon.lat := get (protos.lat track) 0; LatLon.lon := get (protos.lon track) 0 |} in
  for_range 1 trackLen (λ i '(distX, distZ, deltaSeconds, previousLatLon),
      let currentLatLon :=
        {| LatLon.lat := get (protos.lat track) i; LatLon.lon := get (protos.lon track) i |} in
      let distX := set distX i (getDistance previousLatLon currentLatLon) in
      let previousLatLon := currentLatLon in
      let distZ := set distZ i (get (protos.alt track) i - get (protos.alt track) (i - 1)) in
      let deltaSeconds :=
        set deltaSeconds i (get (protos.timeSec track) i - get (protos.timeSec track) (i - 1)) in
      (distX, distZ, deltaSeconds, previousLatLon))
    ([zero], [zero], [zero], previousLatLon).

(** The second loop of [protoToRuntimeTrack]. *)
Definition compute_vx (trackLen : nat) (distX deltaSeconds : list num) : list num :=
  for_range 0 trackLen (λ i vx,
      (* Compute vx. *)
      let '(distance, timeSec) :=
        window 65 trackLen 65 (of_Z 60) distX deltaSeconds i 1 zero zero in
      set vx i (if timeSec >? zero then Math_round ((n3_6 * distance) / timeSec) else zero))
    [].

(** Creates a runtime track from a track proto:
    decodes differential encoded fields, adds computed fields. *)
Definition protoToRuntimeTrack (id : string) (differentialTrack : protos.Track)
    (isPostProcessed : bool) : RuntimeTrack.t :=
  let track := diffDecodeTrack differentialTrack in
  let trackLen := length (protos.lat track) in
  let '(distX, distZ, deltaSeconds, _) := precompute track trackLen in
  let vx := compute_vx trackLen distX deltaSeconds in
  let vz := computeVerticalSpeed (protos.alt track) (protos.timeSec track) in
  {| RuntimeTrack.id := id;
     RuntimeTrack.name := protos.pilot track;
     RuntimeTrack.lat := protos.lat track;
     RuntimeTrack.lon := protos.lon track;
     RuntimeTrack.lookAtLat := protos.lat track;
     RuntimeTrack.lookAtLon := protos.lon track;
     RuntimeTrack.alt := protos.alt track;
     RuntimeTrack.gndAlt := Array_fill trackLen zero;
     RuntimeTrack.timeSec := protos.timeSec track;
     RuntimeTrack.vx := vx;
     RuntimeTrack.vz := vz;
     RuntimeTrack.heading := Array_fill trackLen zero;
     RuntimeTrack.maxAlt := Math_max (protos.alt track);
     RuntimeTrack.minAlt := Math_min (protos.alt track);
     RuntimeTrack.maxLat := Math_max (protos.lat track);
     RuntimeTrack.minLat := Math_min (protos.lat track);
     RuntimeTrack.maxLon := Math_max (protos.lon track);
     RuntimeTrack.minLon := Math_min (protos.lon track);
     RuntimeTrack.maxTimeSec := Math_max (protos.timeSec track);
     RuntimeTrack.minTimeSec := Math_min (protos.timeSec track);
     RuntimeTrack.maxVz := Math_max vz;
     RuntimeTrack.minVz := Math_min vz;
     RuntimeTrack.maxVx := Math_max vx;
     RuntimeTrack.minVx := Math_min vx;
     RuntimeTrack.maxDistance := Math_max distX;
     RuntimeTrack.isPostProcessed := isPostProcessed;
     RuntimeTrack.airspaces := None |}.

(** The body of [metaGroups.forEach]: the tracks of one group, with its
    overlays merged by position, appended to [runtimeTracks]. *)
Definition createGroupTracks (runtimeTracks : list RuntimeTrack.t)
    (metaGroup : protos.MetaTrackGroup) : result (list RuntimeTrack.t) :=
  let rtTracks : list RuntimeTrack.t := [] in
  (* Decode the TrackGroup proto and create runtime tracks. *)
  rtTracks ←
    match protos.trackGroupBin metaGroup with
    | Some tracks =>
        forEach (λ rtTracks protoTrack i,
            Ok (rtTracks ++
                [protoToRuntimeTrack (createTrackId (protos.id metaGroup) (Z.of_nat i))
                   protoTrack (protos.numPostprocess metaGroup >? 0)%Z]))
          tracks rtTracks
    | None => Ok rtTracks
    end;
  (* Add the ground altitude to the tracks if available. *)
  rtTracks ←
    match protos.groundAltitudeGroupBin metaGroup with
    | Some groundAltitudes =>
        forEach (λ rtTracks gndAlt i,
            t ← addGroundAltitude (rtTracks !! i) gndAlt; Ok (store rtTracks i t))
          groundAltitudes rtTracks
    | None => Ok rtTracks
    end;
  (* Add the airspaces to the tracks if available. *)
  rtTracks ←
    match protos.airspacesGroupBin metaGroup with
    | Some airspaces =>
        forEach (λ rtTracks asp i,
            t ← addAirspaces (rtTracks !! i) asp; Ok (store rtTracks i t))
          airspaces rtTracks
    | None => Ok rtTracks
    end;
  Ok (runtimeTracks ++ rtTracks).

(** Creates tracks from a MetaTracks protocol buffer, given as the list of
    its decoded groups. *)
Fixpoint createRuntimeTracks_from (runtimeTracks : list RuntimeTrack.t)
    (metaGroups : list protos.MetaTrackGroup) : result (list RuntimeTrack.t) :=
  match metaGroups with
  | [] => Ok runtimeTracks
  | metaGroup :: rest =>
      runtimeTracks ← createGroupTracks runtimeTracks metaGroup;
      createRuntimeTracks_from runtimeTracks rest
  end.

Definition createRuntimeTracks (metaGroups : list protos.MetaTrackGroup)
    : result (list RuntimeTrack.t) :=
  createRuntimeTracks_from [] metaGroups.

End WithDistance.

(** ** The speed windows as the specification words them

    These definitions follow the specification, not the code: the
    precomputed step values are given per index, and the window is a count of
    steps, each adding the same step value, that stops early once the time
    total exceeds the limit. *)

(** Fix [i] of a trajectory. *)
Definition point (track : protos.Track) (i : nat) : LatLon.t :=
  {| LatLon.lat := get (protos.lat track) i; LatLon.lon := get (protos.lon track) i |}.

(** The distance between fix [i-1] and fix [i], 0 for [i = 0]. *)
Definition distX_at (getDistance : LatLon.t → LatLon.t → num)
    (track : protos.Track) (i : nat) : num :=
  match i with
  | O => zero
  | S j => getDistance (point track j) (point track i)
  end.

(** [a[i] - a[i-1]], 0 for [i = 0]: the climb [distZ] of the altitudes, the
    duration [deltaSec] of the times. *)
Definition step_at (a : list num) (i : nat) : num :=
  match i with
  | O => zero
  | S j => get a i - get a j
  end.

(** The values [avg] takes from 1 while [i + avg < N] and [avg < cap]. *)
Definition window_steps (N cap i : nat) : nat := (N - 1 - i) `min` (cap - 1).

(** [steps] additions of the same step values to the running totals, left
    as soon as the time total exceeds [limit]. *)
Fixpoint accumulate (steps : nat) (limit stepDist stepSec : num)
    (distance timeSec : num) : num * num :=
  match steps with
  | O => (distance, timeSec)
  | S steps =>
      let distance := distance + stepDist in
      let timeSec := timeSec + stepSec in
      if timeSec >? limit then (distance, timeSec)
      else accumulate steps limit stepDist stepSec distance timeSec
  end.

(** The totals of the horizontal window of index [i]: at most 64 steps, at
    most 60 seconds. *)
Definition vx_totals (getDistance : LatLon.t → LatLon.t → num)
    (track : protos.Track) (i : nat) : num * num :=
  accumulate (window_steps (length (protos.lat track)) 65 i) (of_Z 60)
    (distX_at getDistance track i) (step_at (protos.timeSec track) i) zero zero.

(** [vx[i]]: kilometers per hour, rounded to an integer. *)
Definition vx_spec (getDistance : LatLon.t → LatLon.t → num)
    (track : protos.Track) (i : nat) : num :=
  let '(D, T) := vx_totals getDistance track i in
  if T >? zero then Math_round ((n3_6 * D) / T) else zero.

(** The totals of the vertical window of index [i]: at most 34 steps, at
    most 30 seconds. *)
Definition vz_totals (alt timeSec : list num) (i : nat) : num * num :=
  accumulate (window_steps (length alt) 35 i) (of_Z 30)
    (step_at alt i) (step_at timeSec i) zero zero.

(** [vz[i]]: meters per second, rounded to one decimal place. *)
Definition vz_spec (alt timeSec : list num) (i : nat) : num :=
  let '(D, T) := vz_totals alt timeSec i in
  if T >? zero then toFixed1 (D / T) else zero.

(** [k] additions of [x] to [start]: [((start + x) + x) + ...]. *)
Fixpoint add_times (k : nat) (x start : num) : num :=
  match k with
  | O => start
  | S k => add_times k x (start + x)
  end.


(** A distance function for the examples: 111 km per degree along each
    axis, to the meter. *)
Definition grid_distance (a b : LatLon.t) : num :=
  match LatLon.lat a, LatLon.lon a, LatLon.lat b, LatLon.lon b with
  | Fin u, Fin x, Fin v, Fin y =>
      Math_round (Fin (Qred ((Qabs (v - u) + Qabs (y - x)) * 111000)))
  | _, _, _, _ => NaN
  end.

(** The four-sample trajectory of the specification's end-to-end scenario,
    and its wire form. *)
Definition sample_track : protos.Track :=
  {| protos.pilot := "pilot";
     protos.lat := Fin <$> [10; 10; 10; 10]%Q;
     protos.lon := Fin <$> [0; 1 # 1000; 2 # 1000; 3 # 1000]%Q;
     protos.alt := Fin <$> [100; 110; 105; 105]%Q;
     protos.timeSec := Fin <$> [0; 10; 20; 30]%Q |}.

Definition sample_wire : protos.Track := Eval vm_compute in diffEncodeTrack sample_track.

(** ** Finite data *)

Definition finite_list (a : list num) : Prop := Forall is_fin a.

Definition finite_track (track : protos.Track) : Prop :=
  finite_list (protos.lat track) ∧ finite_list (protos.lon track) ∧
  finite_list (protos.alt track) ∧ finite_list (protos.timeSec track).

(** The value the previous sample contributes to a delta: nothing before
    the first sample. *)
Definition prev_value (prev : option Q) : Q := default 0%Q prev.

(** ** Extrema *)

(** [m] is the largest element of [a], for the order of the numbers. *)
Definition is_maximum (m : num) (a : list num) : Prop :=
  m ∈ a ∧ ∀ x, x ∈ a → JS.le x m.

(** [m] is the smallest element of [a]. *)
Definition is_minimum (m : num) (a : list num) : Prop :=
  m ∈ a ∧ ∀ x, x ∈ a → JS.le m x.

Definition finite_point (p : LatLon.t) : Prop :=
  is_fin (LatLon.lat p) ∧ is_fin (LatLon.lon p).

(** The four arrays of a trajectory have one length. *)
Definition same_lengths (track : protos.Track) : Prop :=
  length (protos.lon track) = length (protos.lat track) ∧
  length (protos.alt track) = length (protos.lat track) ∧
  length (protos.timeSec track) = length (protos.lat track).

(** ** Zero elapsed time *)

(** All consecutive times are equal from fix [lo] up to fix [hi]. *)
Definition equal_times (timeSec : list num) (lo hi : nat) : Prop :=
  ∀ j, (lo ≤ j < hi)%nat → get timeSec j ≈ get timeSec (S j).

(** ** The lengths of the derived arrays *)

Definition derived_lengths (t : RuntimeTrack.t) : Prop :=
  let N := length (RuntimeTrack.lat t) in
  length (RuntimeTrack.vx t) = N ∧ length (RuntimeTrack.vz t) = N ∧
  length (RuntimeTrack.gndAlt t) = N ∧ length (RuntimeTrack.heading t) = N ∧
  length (RuntimeTrack.lookAtLat t) = N ∧ length (RuntimeTrack.lookAtLon t) = N.

(** ** Track ids *)

Fixpoint all_digits (s : string) : bool :=
  match s with
  | EmptyString => true
  | String c rest => Str.is_digit c && all_digits rest
  end.

(** [s] begins with a run of digits followed by a dash. *)
Definition starts_with_digits_dash (s : string) : Prop :=
  ∃ ds rest : string,
    ds ≠ EmptyString ∧ all_digits ds = true ∧ s = (ds ++ "-" ++ rest)%string.

(** ** Groups *)

(** The decoded containers of a group, empty when absent. *)
Definition tracks_of (g : protos.MetaTrackGroup) : list protos.Track :=
  default [] (protos.trackGroupBin g).

Definition groundAltitudes_of (g : protos.MetaTrackGroup) : list protos.GroundAltitude :=
  default [] (protos.groundAltitudeGroupBin g).

Definition airspaces_of (g : protos.MetaTrackGroup) : list protos.Airspaces :=
  default [] (protos.airspacesGroupBin g).

(** Each overlay container has at most as many entries as the group has
    tracks. *)
Definition overlays_fit (g : protos.MetaTrackGroup) : Prop :=
  (length (groundAltitudes_of g) ≤ length (tracks_of g))%nat ∧
  (length (airspaces_of g) ≤ length (tracks_of g))%nat.

(** Every ground altitude entry carries its array, as entries decoded from
    the wire do (a repeated field decodes to an array, possibly empty). *)
Definition arrays_present (g : protos.MetaTrackGroup) : Prop :=
  Forall (λ e, is_Some (protos.altitudes e)) (groundAltitudes_of g).

(** What reaches an undefined track: an airspaces entry, or a ground
    altitude entry that carries an array, at an index with no track. *)
Definition overlays_safe (g : protos.MetaTrackGroup) : Prop :=
  (∀ i e, groundAltitudes_of g !! i = Some e → is_Some (protos.altitudes e) →
          (i < length (tracks_of g))%nat) ∧
  (length (airspaces_of g) ≤ length (tracks_of g))%nat.

(** A track without its overlays. *)
Definition base (t : RuntimeTrack.t) : RuntimeTrack.t :=
  {| RuntimeTrack.id := RuntimeTrack.id t;
     RuntimeTrack.isPostProcessed := RuntimeTrack.isPostProcessed t;
     RuntimeTrack.name := RuntimeTrack.name t;
     RuntimeTrack.lat := RuntimeTrack.lat t; RuntimeTrack.lon := RuntimeTrack.lon t;
     RuntimeTrack.lookAtLat := RuntimeTrack.lookAtLat t;
     RuntimeTrack.lookAtLon := RuntimeTrack.lookAtLon t;
     RuntimeTrack.alt := RuntimeTrack.alt t; RuntimeTrack.gndAlt := [];
     RuntimeTrack.vx := RuntimeTrack.vx t; RuntimeTrack.vz := RuntimeTrack.vz t;
     RuntimeTrack.timeSec := RuntimeTrack.timeSec t;
     RuntimeTrack.heading := RuntimeTrack.heading t;
     RuntimeTrack.maxAlt := RuntimeTrack.maxAlt t; RuntimeTrack.minAlt := RuntimeTrack.minAlt t;
     RuntimeTrack.maxTimeSec := RuntimeTrack.maxTimeSec t;
     RuntimeTrack.minTimeSec := RuntimeTrack.minTimeSec t;
     RuntimeTrack.maxLat := RuntimeTrack.maxLat t; RuntimeTrack.minLat := RuntimeTrack.minLat t;
     RuntimeTrack.maxLon := RuntimeTrack.maxLon t; RuntimeTrack.minLon := RuntimeTrack.minLon t;
     RuntimeTrack.maxVx := RuntimeTrack.maxVx t; RuntimeTrack.minVx := RuntimeTrack.minVx t;
     RuntimeTrack.maxVz := RuntimeTrack.maxVz t; RuntimeTrack.minVz := RuntimeTrack.minVz t;
     RuntimeTrack.maxDistance := RuntimeTrack.maxDistance t;
     RuntimeTrack.airspaces := None |}.

(** The id and the flag of a track. *)
Definition identity (t : RuntimeTrack.t) : string * bool :=
  (RuntimeTrack.id t, RuntimeTrack.isPostProcessed t).

(** Example data: a ground altitude overlay for the sample track, one of
    the wrong length, airspaces, and groups built from them. *)
Definition sample_ground : protos.GroundAltitude :=
  {| protos.altitudes := Some (Fin <$> [90; 5; -3; 1]%Q) |}.

Definition short_ground : protos.GroundAltitude :=
  {| protos.altitudes := Some (Fin <$> [90; 5]%Q) |}.

Definition sample_airspaces : protos.Airspaces :=
  {| protos.startSec := Fin <$> [5; 10]%Q;
     protos.endSec := Fin <$> [9; -2]%Q;
     protos.name := ["CTR"; "TMA"] |}.

Definition sample_group : protos.MetaTrackGroup :=
  {| protos.id := 42; protos.numPostprocess := 1;
     protos.trackGroupBin := Some [sample_wire; sample_wire];
     protos.groundAltitudeGroupBin := Some [sample_ground];
     protos.airspacesGroupBin := Some [sample_airspaces; sample_airspaces] |}.

Definition bare_group : protos.MetaTrackGroup :=
  {| protos.id := 7; protos.numPostprocess := 0;
     protos.trackGroupBin := None;
     protos.groundAltitudeGroupBin := None;
     protos.airspacesGroupBin := None |}.

(** A group whose airspaces overlay has an entry and no track. *)
Definition orphan_group : protos.MetaTrackGroup :=
  {| protos.id := 8; protos.numPostprocess := 0;
     protos.trackGroupBin := None;
     protos.groundAltitudeGroupBin := None;
     protos.airspacesGroupBin := Some [sample_airspaces] |}.

(** ** Further properties of the code *)

(** Differential encoding of airspaces: signed values, as the end times are
    not ordered. *)
Definition diffEncodeAirspaces (asp : protos.Airspaces) : protos.Airspaces :=
  {| protos.startSec :=
       math.diffEncodeArray (protos.startSec asp) math.default_scale math.default_round;
     protos.endSec :=
       math.diffEncodeArray (protos.endSec asp) math.default_scale math.default_round;
     protos.name := protos.name asp |}.

(** A finite number that is an integer. *)
Definition integer_valued (x : num) : Prop :=
  match x with Fin a => ∃ z : Z, (a == inject_Z z)%Q | _ => False end.

(** An overlay entry of the group reaches an undefined track. *)
Definition reaches_undefined (g : protos.MetaTrackGroup) : Prop :=
  (∃ j e, groundAltitudes_of g !! j = Some e ∧ is_Some (protos.altitudes e) ∧
          (length (tracks_of g) ≤ j)%nat) ∨
  (length (tracks_of g) < length (airspaces_of g))%nat.

Fixpoint all_zeros (s : string) : bool :=
  match s with
  | EmptyString => true
  | String c rest => Ascii.eqb c "0" && all_zeros rest
  end.

(** Every field of [t'] but [gndAlt] is the field of [t]. *)
Definition unchanged_but_gndAlt (t t' : RuntimeTrack.t) : Prop :=
  RuntimeTrack.id t' = RuntimeTrack.id t ∧
  RuntimeTrack.isPostProcessed t' = RuntimeTrack.isPostProcessed t ∧
  RuntimeTrack.name t' = RuntimeTrack.name t ∧
  RuntimeTrack.lat t' = RuntimeTrack.lat t ∧
  RuntimeTrack.lon t' = RuntimeTrack.lon t ∧
  RuntimeTrack.lookAtLat t' = RuntimeTrack.lookAtLat t ∧
  RuntimeTrack.lookAtLon t' = RuntimeTrack.lookAtLon t ∧
  RuntimeTrack.alt t' = RuntimeTrack.alt t ∧
  RuntimeTrack.vx t' = RuntimeTrack.vx t ∧
  RuntimeTrack.vz t' = RuntimeTrack.vz t ∧
  RuntimeTrack.timeSec t' = RuntimeTrack.timeSec t ∧
  RuntimeTrack.heading t' = RuntimeTrack.heading t ∧
  RuntimeTrack.maxAlt t' = RuntimeTrack.maxAlt t ∧
  RuntimeTrack.minAlt t' = RuntimeTrack.minAlt t ∧
  RuntimeTrack.maxTimeSec t' = RuntimeTrack.maxTimeSec t ∧
  RuntimeTrack.minTimeSec t' = RuntimeTrack.minTimeSec t ∧
  RuntimeTrack.maxLat t' = RuntimeTrack.maxLat t ∧
  RuntimeTrack.minLat t' = RuntimeTrack.minLat t ∧
  RuntimeTrack.maxLon t' = RuntimeTrack.maxLon t ∧
  RuntimeTrack.minLon t' = RuntimeTrack.minLon t ∧
  RuntimeTrack.maxVx t' = RuntimeTrack.maxVx t ∧
  RuntimeTrack.minVx t' = RuntimeTrack.minVx t ∧
  RuntimeTrack.maxVz t' = RuntimeTrack.maxVz t ∧
  RuntimeTrack.minVz t' = RuntimeTrack.minVz t ∧
  RuntimeTrack.maxDistance t' = RuntimeTrack.maxDistance t ∧
  RuntimeTrack.airspaces t' = RuntimeTrack.airspaces t.

(** A pilot who moves and climbs between the first two fixes, and whose
    clock then stands still: the times of fixes 1, 2 and 3 are equal. *)
Definition stalled_track : protos.Track :=
  {| protos.pilot := "pilot";
     protos.lat := Fin <$> [10; 10; 10; 10]%Q;
     protos.lon := Fin <$> [0; 1 # 1000; 2 # 1000; 3 # 1000]%Q;
     protos.alt := Fin <$> [0; 5; 5; 5]%Q;
     protos.timeSec := Fin <$> [0; 10; 10; 10]%Q |}.

Definition stalled_wire : protos.Track := Eval vm_compute in diffEncodeTrack stalled_track.

(** * Properties *)

(** ** Loops and arrays *)

Lemma for_range_empty {S : Type} (from to : nat) (body : nat → S → S) (s : S) :
  (to ≤ from)%nat → for_range from to body s = s.
Proof.
  intros Hle. unfold for_range.
  replace (to - from)%nat with 0%nat by lia. reflexivity.
Qed.

Lemma for_range_last {S : Type} (from to : nat) (body : nat → S → S) (s : S) :
  (from ≤ to)%nat →
  for_range from (Datatypes.S to) body s = body to (for_range from to body s).
Proof.
  intros Hle. unfold for_range.
  replace (Datatypes.S to - from)%nat with (Datatypes.S (to - from)) by lia.
  rewrite seq_S, fold_left_app. simpl.
  replace (from + (to - from))%nat with to by lia. reflexivity.
Qed.

Lemma set_push (a : list num) (v : num) : set a (length a) v = a ++ [v].
Proof.
  unfold set. destruct (decide _) as [Hlt|_]; [lia|].
  rewrite Nat.sub_diag. reflexivity.
Qed.

Lemma get_tabulate (f : nat → num) (n i : nat) :
  (i < n)%nat → get (f <$> seq 0 n) i = f i.
Proof.
  intros Hi. unfold get.
  rewrite list_lookup_fmap, lookup_seq_lt by done. reflexivity.
Qed.

Lemma tabulate_push (f : nat → num) (n : nat) :
  set (f <$> seq 0 n) n (f n) = f <$> seq 0 (Datatypes.S n).
Proof.
  replace (set (f <$> seq 0 n) n (f n))
    with (set (f <$> seq 0 n) (length (f <$> seq 0 n)) (f n)).
  - rewrite set_push, seq_S, fmap_app. reflexivity.
  - rewrite length_fmap, length_seq. reflexivity.
Qed.

(** A loop that writes [f i] at index [i] of an array it grows from empty
    builds the table of [f]. *)
Lemma for_range_tabulate (f : nat → num) (n : nat) :
  for_range 0 n (λ i a, set a i (f i)) [] = f <$> seq 0 n.
Proof.
  induction n as [|n IH].
  - reflexivity.
  - rewrite for_range_last by lia. rewrite IH. apply tabulate_push.
Qed.

(** ** The averaging loop *)

(** With enough fuel to reach the cap, the loop of the code is the window
    of the specification over the steps that are left. *)
Lemma window_accumulate (fuel trackLen cap : nat) (limit : num)
    (dist deltaSec : list num) (i avg : nat) (distance timeSec : num) :
  (cap - avg ≤ fuel)%nat →
  window fuel trackLen cap limit dist deltaSec i avg distance timeSec =
  accumulate ((trackLen - i - avg) `min` (cap - avg)) limit
    (get dist i) (get deltaSec i) distance timeSec.
Proof.
  revert avg distance timeSec.
  induction fuel as [|fuel IH]; intros avg distance timeSec Hfuel.
  - replace ((trackLen - i - avg) `min` (cap - avg))%nat with 0%nat by lia.
    reflexivity.
  - cbn [window].
    destruct (bool_decide (i + avg < trackLen)%nat) eqn:Hin;
      destruct (bool_decide (avg < cap)%nat) eqn:Hcap; cbn [andb];
      try apply bool_decide_eq_true in Hin; try apply bool_decide_eq_false in Hin;
      try apply bool_decide_eq_true in Hcap; try apply bool_decide_eq_false in Hcap.
    + replace ((trackLen - i - avg) `min` (cap - avg))%nat
        with (Datatypes.S ((trackLen - i - Datatypes.S avg) `min` (cap - Datatypes.S avg)))
        by lia.
      cbn [accumulate]. destruct (_ >? limit); [reflexivity|].
      apply IH. lia.
    + replace ((trackLen - i - avg) `min` (cap - avg))%nat with 0%nat by lia.
      reflexivity.
    + replace ((trackLen - i - avg) `min` (cap - avg))%nat with 0%nat by lia.
      reflexivity.
    + replace ((trackLen - i - avg) `min` (cap - avg))%nat with 0%nat by lia.
      reflexivity.
Qed.

(** The fuel the code is run with is enough: more fuel changes nothing. *)
Lemma window_fuel (fuel fuel' trackLen cap : nat) (limit : num)
    (dist deltaSec : list num) (i avg : nat) (distance timeSec : num) :
  (cap - avg ≤ fuel)%nat → (cap - avg ≤ fuel')%nat →
  window fuel trackLen cap limit dist deltaSec i avg distance timeSec =
  window fuel' trackLen cap limit dist deltaSec i avg distance timeSec.
Proof. intros H H'. rewrite !window_accumulate by done. reflexivity. Qed.

Lemma window_from_1 (trackLen cap : nat) (limit : num)
    (dist deltaSec : list num) (i : nat) :
  window cap trackLen cap limit dist deltaSec i 1 zero zero =
  accumulate (window_steps trackLen cap i) limit (get dist i) (get deltaSec i) zero zero.
Proof.
  rewrite window_accumulate by lia. unfold window_steps.
  replace (trackLen - i - 1)%nat with (trackLen - 1 - i)%nat by lia. reflexivity.
Qed.

Lemma for_range_ext {S : Type} (from to : nat) (body body' : nat → S → S) (s : S) :
  (∀ i s, (from ≤ i < to)%nat → body i s = body' i s) →
  for_range from to body s = for_range from to body' s.
Proof.
  intros Hext. induction to as [|to IH].
  - rewrite !for_range_empty by lia. reflexivity.
  - destruct (decide (from ≤ to)%nat) as [Hle|Hgt].
    + rewrite !for_range_last by done.
      rewrite IH by (intros; apply Hext; lia). apply Hext. lia.
    + rewrite !for_range_empty by lia. reflexivity.
Qed.

Lemma lookup_tabulate {A : Type} (f : nat → A) (n i : nat) :
  (i < n)%nat → (f <$> seq 0 n) !! i = Some (f i).
Proof.
  intros Hi. rewrite list_lookup_fmap, lookup_seq_lt by done. reflexivity.
Qed.

(** ** The precomputed step arrays *)

Lemma vertical_precompute (alt timeSec : list num) (n : nat) :
  for_range 1 n (λ i '(distZ, deltaSec),
      let distZ := set distZ i (get alt i - get alt (i - 1)) in
      let deltaSec := set deltaSec i (get timeSec i - get timeSec (i - 1)) in
      (distZ, deltaSec))
    ([zero], [zero]) =
  (step_at alt <$> seq 0 (1 `max` n), step_at timeSec <$> seq 0 (1 `max` n)).
Proof.
  destruct n as [|n]; [reflexivity|].
  induction n as [|n IH]; [reflexivity|].
  rewrite for_range_last by lia. rewrite IH.
  replace (1 `max` Datatypes.S n)%nat with (Datatypes.S n) by lia.
  replace (1 `max` Datatypes.S (Datatypes.S n))%nat with (Datatypes.S (Datatypes.S n)) by lia.
  cbn beta iota zeta.
  replace (Datatypes.S n - 1)%nat with n by lia.
  f_equal.
  - exact (tabulate_push (step_at alt) (Datatypes.S n)).
  - exact (tabulate_push (step_at timeSec) (Datatypes.S n)).
Qed.

Lemma computeVerticalSpeed_tabulate (alt timeSec : list num) :
  computeVerticalSpeed alt timeSec = vz_spec alt timeSec <$> seq 0 (length alt).
Proof.
  unfold computeVerticalSpeed. rewrite vertical_precompute.
  rewrite <- (for_range_tabulate (vz_spec alt timeSec)). apply for_range_ext.
  intros i vz [_ Hi]. rewrite window_from_1.
  rewrite !get_tabulate by lia. unfold vz_spec, vz_totals.
  destruct (accumulate _ _ _ _ _ _) as [D T]. reflexivity.
Qed.

Section WithDistance.
Variable getDistance : LatLon.t → LatLon.t → num.

Lemma precompute_tabulate (track : protos.Track) (n : nat) :
  precompute getDistance track n =
  (distX_at getDistance track <$> seq 0 (1 `max` n),
   step_at (protos.alt track) <$> seq 0 (1 `max` n),
   step_at (protos.timeSec track) <$> seq 0 (1 `max` n),
   point track ((1 `max` n) - 1)).
Proof.
  unfold precompute.
  destruct n as [|n]; [reflexivity|].
  induction n as [|n IH]; [reflexivity|].
  rewrite for_range_last by lia. rewrite IH.
  replace (1 `max` Datatypes.S n)%nat with (Datatypes.S n) by lia.
  replace (1 `max` Datatypes.S (Datatypes.S n))%nat with (Datatypes.S (Datatypes.S n)) by lia.
  cbn beta iota zeta.
  replace (Datatypes.S n - 0)%nat with (Datatypes.S n) by lia.
  replace (Datatypes.S n - 1)%nat with n by lia.
  rewrite <- (tabulate_push (distX_at getDistance track) (Datatypes.S n)),
    <- (tabulate_push (step_at (protos.alt track)) (Datatypes.S n)),
    <- (tabulate_push (step_at (protos.timeSec track)) (Datatypes.S n)).
  reflexivity.
Qed.

Lemma compute_vx_tabulate (track : protos.Track) :
  let n := length (protos.lat track) in
  compute_vx n (distX_at getDistance track <$> seq 0 (1 `max` n))
    (step_at (protos.timeSec track) <$> seq 0 (1 `max` n)) =
  vx_spec getDistance track <$> seq 0 n.
Proof.
  intros n. unfold compute_vx.
  rewrite <- (for_range_tabulate (vx_spec getDistance track)). apply for_range_ext.
  intros i vx [_ Hi]. rewrite window_from_1.
  rewrite !get_tabulate by lia. unfold vx_spec, vx_totals. fold n.
  destruct (accumulate _ _ _ _ _ _) as [D T]. reflexivity.
Qed.


Lemma protoToRuntimeTrack_vz (id : string) (differentialTrack : protos.Track)
    (isPostProcessed : bool) :
  let track := diffDecodeTrack differentialTrack in
  RuntimeTrack.vz (protoToRuntimeTrack getDistance id differentialTrack isPostProcessed) =
  vz_spec (protos.alt track) (protos.timeSec track) <$> seq 0 (length (protos.alt track)).
Proof.
  intros track. unfold protoToRuntimeTrack. fold track.
  rewrite precompute_tabulate. cbn [RuntimeTrack.vz].
  apply computeVerticalSpeed_tabulate.
Qed.

Lemma protoToRuntimeTrack_maxDistance (id : string) (differentialTrack : protos.Track)
    (isPostProcessed : bool) :
  let track := diffDecodeTrack differentialTrack in
  RuntimeTrack.maxDistance (protoToRuntimeTrack getDistance id differentialTrack isPostProcessed) =
  Math_max (distX_at getDistance track <$> seq 0 (1 `max` length (protos.lat track))).
Proof.
  intros track. unfold protoToRuntimeTrack. fold track.
  rewrite precompute_tabulate. reflexivity.
Qed.

End WithDistance.

Section Assembled.
Variable getDistance : LatLon.t → LatLon.t → num.

(** The assembled track, written with the tables of the specification. *)
Lemma protoToRuntimeTrack_tabulate (id : string) (differentialTrack : protos.Track)
    (isPostProcessed : bool) :
  let track := diffDecodeTrack differentialTrack in
  let trackLen := length (protos.lat track) in
  let vx := vx_spec getDistance track <$> seq 0 trackLen in
  let vz := vz_spec (protos.alt track) (protos.timeSec track)
              <$> seq 0 (length (protos.alt track)) in
  protoToRuntimeTrack getDistance id differentialTrack isPostProcessed =
  {| RuntimeTrack.id := id;
     RuntimeTrack.name := protos.pilot track;
     RuntimeTrack.lat := protos.lat track;
     RuntimeTrack.lon := protos.lon track;
     RuntimeTrack.lookAtLat := protos.lat track;
     RuntimeTrack.lookAtLon := protos.lon track;
     RuntimeTrack.alt := protos.alt track;
     RuntimeTrack.gndAlt := Array_fill trackLen zero;
     RuntimeTrack.timeSec := protos.timeSec track;
     RuntimeTrack.vx := vx;
     RuntimeTrack.vz := vz;
     RuntimeTrack.heading := Array_fill trackLen zero;
     RuntimeTrack.maxAlt := Math_max (protos.alt track);
     RuntimeTrack.minAlt := Math_min (protos.alt track);
     RuntimeTrack.maxLat := Math_max (protos.lat track);
     RuntimeTrack.minLat := Math_min (protos.lat track);
     RuntimeTrack.maxLon := Math_max (protos.lon track);
     RuntimeTrack.minLon := Math_min (protos.lon track);
     RuntimeTrack.maxTimeSec := Math_max (protos.timeSec track);
     RuntimeTrack.minTimeSec := Math_min (protos.timeSec track);
     RuntimeTrack.maxVz := Math_max vz;
     RuntimeTrack.minVz := Math_min vz;
     RuntimeTrack.maxVx := Math_max vx;
     RuntimeTrack.minVx := Math_min vx;
     RuntimeTrack.maxDistance :=
       Math_max (distX_at getDistance track <$> seq 0 (1 `max` trackLen));
     RuntimeTrack.isPostProcessed := isPostProcessed;
     RuntimeTrack.airspaces := None |}.
Proof.
  intros track trackLen vx vz. unfold protoToRuntimeTrack. fold track trackLen.
  rewrite precompute_tabulate.
  unfold trackLen. rewrite compute_vx_tabulate, computeVerticalSpeed_tabulate.
  reflexivity.
Qed.

End Assembled.

(** ** The window in closed form *)

(** The window takes some number [k] of steps, each adding the same step
    values: [k] is at most the number of steps allowed, no total before the
    last exceeds the limit, and the window stops short of the allowed steps
    only on a total that exceeds it. *)
Lemma accumulate_closed (steps : nat) (limit stepDist stepSec distance timeSec : num) :
  ∃ k : nat,
    (k ≤ steps)%nat ∧ (0 < steps → 0 < k)%nat ∧
    accumulate steps limit stepDist stepSec distance timeSec =
      (add_times k stepDist distance, add_times k stepSec timeSec) ∧
    (∀ j, (1 ≤ j < k)%nat → (add_times j stepSec timeSec >? limit) = false) ∧
    ((k < steps)%nat → (add_times k stepSec timeSec >? limit) = true).
Proof.
  revert distance timeSec.
  induction steps as [|steps IH]; intros distance timeSec.
  - exists 0%nat. split_and!; [lia|lia|reflexivity|intros j Hj; lia|lia].
  - cbn [accumulate].
    destruct (timeSec + stepSec >? limit) eqn:Hstop.
    + exists 1%nat. split_and!; [lia|lia|reflexivity|intros j Hj; lia|done].
    + destruct (IH (distance + stepDist) (timeSec + stepSec))
        as (k & Hk & _ & Hacc & Hbefore & Hshort).
      exists (Datatypes.S k). split_and!; [lia|lia|exact Hacc| |].
      * intros j Hj. destruct j as [|[|j]]; [lia|exact Hstop|].
        apply (Hbefore (Datatypes.S j)). lia.
      * intros Hlt. apply Hshort. lia.
Qed.


(** ** Rounding to binary64 *)


Lemma scale2_pos (n d e : Z) : (0 < d)%Z → (0 < (scale2 n d e).2)%Z.
Proof.
  intros Hd. unfold scale2. destruct (Z.leb_spec 0 e); cbn [snd]; [|done].
  pose proof (Z.pow_pos_nonneg 2 e ltac:(lia) ltac:(lia)). nia.
Qed.









(** On altitudes [0, 3, 3] and times [0, 20, 40] the window of fix 1 holds
    one step of 3 meters in 20 seconds.  The quotient 3/20 is the binary64
    number just below 0.15, so [toFixed(1)] prints ["0.1"] and [vz[1]] is the
    binary64 number nearest to one tenth. *)
Example computeVerticalSpeed_three_twentieths :
  computeVerticalSpeed (Fin <$> [0; 3; 3]%Q) (Fin <$> [0; 20; 40]%Q) =
    [zero; Fin (3602879701896397 # 36028797018963968); zero] ∧
  round53 (1 # 10) = (3602879701896397 # 36028797018963968)%Q ∧
  (round53 (3 # 20) < 3 # 20)%Q.
Proof. split; [|split]; vm_compute; reflexivity. Qed.



(** ** The codec *)

Lemma encode_from_length (prev : option num) (scale : num) (round : bool) (values : list num) :
  length (math.encode_from prev scale round values) = length values.
Proof.
  revert prev. induction values as [|v rest IH]; intros prev; [reflexivity|].
  cbn. by rewrite IH.
Qed.

Lemma decode_from_length (sum scale : num) (values : list num) :
  length (math.decode_from sum scale values) = length values.
Proof.
  revert sum. induction values as [|v rest IH]; intros sum; [reflexivity|].
  cbn. by rewrite IH.
Qed.

Lemma diffDecodeArray_length (values : list num) (scale : num) :
  length (math.diffDecodeArray values scale) = length values.
Proof. apply decode_from_length. Qed.

Lemma diffEncodeArray_length (values : list num) (scale : num) (round : bool) :
  length (math.diffEncodeArray values scale round) = length values.
Proof. apply encode_from_length. Qed.

Lemma div_fin (a s : Q) : (0 < s)%Q → Fin a / Fin s = Fin (Qred (a / s)).
Proof.
  intros Hs. cbn. destruct (Qeq_bool s 0) eqn:Heq; [|reflexivity].
  apply Qeq_bool_iff in Heq. lra.
Qed.

(** ** [Math.max] and [Math.min] on finite numbers *)

Lemma gtb_fin (a b : Q) : (Fin a >? Fin b) = true ↔ (b < a)%Q.
Proof.
  cbn [gtb]. rewrite negb_true_iff. split.
  - intros Hle. apply Qnot_le_lt. intros H. apply Qle_bool_iff in H. congruence.
  - intros Hlt. destruct (Qle_bool a b) eqn:Hle; [|reflexivity].
    apply Qle_bool_iff in Hle. lra.
Qed.

Lemma gtb_fin_false (a b : Q) : (Fin a >? Fin b) = false ↔ (a <= b)%Q.
Proof.
  cbn [gtb]. rewrite negb_false_iff. apply Qle_bool_iff.
Qed.

Lemma max2_fin (a b : Q) :
  ∃ c, max2 (Fin a) (Fin b) = Fin c ∧ (a <= c)%Q ∧ (b <= c)%Q ∧
       (Fin c = Fin a ∨ Fin c = Fin b).
Proof.
  unfold max2. destruct (Fin b >? Fin a) eqn:Hgt.
  - apply gtb_fin in Hgt. exists b. split_and!; [done|lra|lra|by right].
  - apply gtb_fin_false in Hgt. exists a. split_and!; [done|lra|lra|by left].
Qed.

Lemma min2_fin (a b : Q) :
  ∃ c, min2 (Fin a) (Fin b) = Fin c ∧ (c <= a)%Q ∧ (c <= b)%Q ∧
       (Fin c = Fin a ∨ Fin c = Fin b).
Proof.
  unfold min2. destruct (Fin a >? Fin b) eqn:Hgt.
  - apply gtb_fin in Hgt. exists b. split_and!; [done|lra|lra|by right].
  - apply gtb_fin_false in Hgt. exists a. split_and!; [done|lra|lra|by left].
Qed.

Lemma fold_max2_fin (xs : list num) (a : Q) :
  finite_list xs →
  ∃ m, fold_left max2 xs (Fin a) = Fin m ∧ (a <= m)%Q ∧
       (∀ x, x ∈ xs → x ≤ Fin m) ∧ (Fin m = Fin a ∨ Fin m ∈ xs).
Proof.
  intros Hfin. revert a. induction Hfin as [|x xs Hx Hxs IH]; intros a.
  - exists a. split_and!; [done|lra| |by left]. intros y Hy. by apply elem_of_nil in Hy.
  - destruct x as [b| | |]; try done. cbn [fold_left].
    destruct (max2_fin a b) as (c & -> & Hac & Hbc & Hc).
    destruct (IH c) as (m & Hm & Hcm & Hall & Hin).
    exists m. split_and!; [exact Hm|lra| |].
    + intros y [->|Hy]%elem_of_cons; [cbn; lra|by apply Hall].
    + destruct Hin as [Hin|Hin]; [|right; by apply elem_of_cons; right].
      rewrite Hin. destruct Hc as [->| ->]; [by left|right; apply elem_of_cons; by left].
Qed.

Lemma fold_min2_fin (xs : list num) (a : Q) :
  finite_list xs →
  ∃ m, fold_left min2 xs (Fin a) = Fin m ∧ (m <= a)%Q ∧
       (∀ x, x ∈ xs → Fin m ≤ x) ∧ (Fin m = Fin a ∨ Fin m ∈ xs).
Proof.
  intros Hfin. revert a. induction Hfin as [|x xs Hx Hxs IH]; intros a.
  - exists a. split_and!; [done|lra| |by left]. intros y Hy. by apply elem_of_nil in Hy.
  - destruct x as [b| | |]; try done. cbn [fold_left].
    destruct (min2_fin a b) as (c & -> & Hac & Hbc & Hc).
    destruct (IH c) as (m & Hm & Hcm & Hall & Hin).
    exists m. split_and!; [exact Hm|lra| |].
    + intros y [->|Hy]%elem_of_cons; [cbn; lra|by apply Hall].
    + destruct Hin as [Hin|Hin]; [|right; by apply elem_of_cons; right].
      rewrite Hin. destruct Hc as [->| ->]; [by left|right; apply elem_of_cons; by left].
Qed.

(** [Math.max(...xs)] of a non-empty array of finite numbers is its
    largest element. *)
Lemma Math_max_is_maximum (xs : list num) :
  xs ≠ [] → finite_list xs → is_maximum (Math_max xs) xs.
Proof.
  intros Hne Hfin. destruct Hfin as [|x xs Hx Hxs]; [done|].
  destruct x as [a| | |]; try done.
  unfold Math_max. cbn [fold_left]. change (max2 NegInf (Fin a)) with (Fin a).
  destruct (fold_max2_fin xs a Hxs) as (m & -> & Ham & Hall & Hin).
  split.
  - destruct Hin as [->|Hin]; apply elem_of_cons; [by left|by right].
  - intros y [->|Hy]%elem_of_cons; [exact Ham|by apply Hall].
Qed.

Lemma Math_min_is_minimum (xs : list num) :
  xs ≠ [] → finite_list xs → is_minimum (Math_min xs) xs.
Proof.
  intros Hne Hfin. destruct Hfin as [|x xs Hx Hxs]; [done|].
  destruct x as [a| | |]; try done.
  unfold Math_min. cbn [fold_left]. change (min2 PosInf (Fin a)) with (Fin a).
  destruct (fold_min2_fin xs a Hxs) as (m & -> & Ham & Hall & Hin).
  split.
  - destruct Hin as [->|Hin]; apply elem_of_cons; [by left|by right].
  - intros y [->|Hy]%elem_of_cons; [exact Ham|by apply Hall].
Qed.

(** ** Finite inputs give finite speeds *)

Lemma get_finite (a : list num) (i : nat) :
  finite_list a → (i < length a)%nat → is_fin (get a i).
Proof.
  intros Hfin Hi. unfold get.
  destruct (lookup_lt_is_Some_2 a i Hi) as [x Hx]. rewrite Hx.
  exact (Forall_lookup_1 _ _ _ _ Hfin Hx).
Qed.

Lemma add_finite (x y : num) : is_fin x → is_fin y → is_fin (x + y).
Proof. by destruct x, y. Qed.

Lemma sub_finite (x y : num) : is_fin x → is_fin y → is_fin (x - y).
Proof. by destruct x, y. Qed.

Lemma mul_finite (x y : num) : is_fin x → is_fin y → is_fin (x * y).
Proof. by destruct x, y. Qed.

Lemma step_at_finite (a : list num) (i : nat) :
  finite_list a → (i < length a)%nat → is_fin (step_at a i).
Proof.
  intros Hfin Hi. destruct i as [|j]; [done|].
  cbn [step_at]. apply sub_finite; apply get_finite; (done || lia).
Qed.

Lemma accumulate_finite (steps : nat) (limit stepDist stepSec distance timeSec : num) :
  is_fin stepDist → is_fin stepSec → is_fin distance → is_fin timeSec →
  is_fin (accumulate steps limit stepDist stepSec distance timeSec).1 ∧
  is_fin (accumulate steps limit stepDist stepSec distance timeSec).2.
Proof.
  intros Hd Hs. revert distance timeSec.
  induction steps as [|steps IH]; intros distance timeSec HD HT; [done|].
  cbn [accumulate]. destruct (_ >? limit).
  - split; by apply add_finite.
  - apply IH; by apply add_finite.
Qed.

(** The quotient of the two totals, taken only when the time is positive. *)
Lemma div_positive_finite (x t : num) :
  is_fin x → is_fin t → (t >? zero) = true → is_fin (x / t).
Proof.
  destruct x as [a| | |], t as [b| | |]; try done. intros _ _ Hpos.
  apply gtb_fin in Hpos. change (inject_Z 0) with 0%Q in Hpos.
  by rewrite div_fin.
Qed.

Lemma Math_round_finite (x : num) : is_fin x → is_fin (Math_round x).
Proof. by destruct x. Qed.

Lemma toFixed1_finite (x : num) : is_fin x → is_fin (toFixed1 x).
Proof.
  destruct x as [a| | |]; try done. intros _. cbn [toFixed1].
  by destruct (Qle_bool _ _).
Qed.

Lemma vz_spec_finite (alt timeSec : list num) (i : nat) :
  finite_list alt → finite_list timeSec →
  (i < length alt)%nat → (i < length timeSec)%nat →
  is_fin (vz_spec alt timeSec i).
Proof.
  intros Halt Htime Hi Hi'. unfold vz_spec, vz_totals.
  destruct (accumulate_finite (window_steps (length alt) 35 i) (of_Z 30)
    (step_at alt i) (step_at timeSec i) zero zero) as [HD HT];
    [by apply step_at_finite|by apply step_at_finite|done|done|].
  destruct (accumulate _ _ _ _ _ _) as [D T]. cbn [fst snd] in *.
  destruct (T >? zero) eqn:Hpos; [|done].
  apply toFixed1_finite. by apply div_positive_finite.
Qed.

Section WithDistance.
Variable getDistance : LatLon.t → LatLon.t → num.
Hypothesis getDistance_finite :
  ∀ a b, finite_point a → finite_point b → is_fin (getDistance a b).

Lemma point_finite (track : protos.Track) (i : nat) :
  finite_track track → same_lengths track → (i < length (protos.lat track))%nat →
  finite_point (point track i).
Proof.
  intros (Hlat & Hlon & _) (Hlen & _) Hi. split; cbn.
  - by apply get_finite.
  - apply get_finite; [done|lia].
Qed.

Lemma distX_at_finite (track : protos.Track) (i : nat) :
  finite_track track → same_lengths track → (i < length (protos.lat track))%nat →
  is_fin (distX_at getDistance track i).
Proof.
  intros Hfin Hlen Hi. destruct i as [|j]; [done|].
  cbn [distX_at]. apply getDistance_finite; apply point_finite; (done || lia).
Qed.

Lemma vx_spec_finite (track : protos.Track) (i : nat) :
  finite_track track → same_lengths track → (i < length (protos.lat track))%nat →
  is_fin (vx_spec getDistance track i).
Proof.
  intros Hfin Hlen Hi. unfold vx_spec, vx_totals.
  destruct (accumulate_finite (window_steps (length (protos.lat track)) 65 i) (of_Z 60)
    (distX_at getDistance track i) (step_at (protos.timeSec track) i) zero zero)
    as [HD HT]; [by apply distX_at_finite| |done|done|].
  { destruct Hfin as (_ & _ & _ & Htime), Hlen as (_ & _ & Hlen).
    apply step_at_finite; [done|lia]. }
  destruct (accumulate _ _ _ _ _ _) as [D T]. cbn [fst snd] in *.
  destruct (T >? zero) eqn:Hpos; [|done].
  apply Math_round_finite, div_positive_finite; [|done|done].
  by apply mul_finite.
Qed.

Lemma tabulate_finite (f : nat → num) (n : nat) :
  (∀ i, (i < n)%nat → is_fin (f i)) → finite_list (f <$> seq 0 n).
Proof.
  intros Hf. apply Forall_fmap, Forall_forall. intros i Hi%elem_of_seq.
  apply Hf. lia.
Qed.

End WithDistance.

Lemma grid_distance_finite (a b : LatLon.t) :
  finite_point a → finite_point b → is_fin (grid_distance a b).
Proof.
  destruct a as [[u| | |] [x| | |]], b as [[v| | |] [y| | |]];
    intros [Ha Ha'] [Hb Hb']; done.
Qed.

Lemma sample_wire_finite : finite_track (diffDecodeTrack sample_wire).
Proof.
  unfold finite_track, finite_list. vm_compute.
  repeat split; repeat constructor.
Qed.

(** C4. For every non-empty decoded trajectory (four arrays of one length,
    of finite numbers, with a distance function that is finite on finite
    points), each [max]/[min] field of the assembled track is the largest /
    smallest element of its array ([alt], [lat], [lon], [timeSec], [vx],
    [vz]), and [maxDistance] is the largest element of the per-step
    distance array [distX] of the [vx] derivation. *)
Theorem extrema_are_true_extrema (getDistance : LatLon.t → LatLon.t → num)
    (id : string) (differentialTrack : protos.Track) (isPostProcessed : bool) :
  let track := diffDecodeTrack differentialTrack in
  let rt := protoToRuntimeTrack getDistance id differentialTrack isPostProcessed in
  let N := length (protos.lat track) in
  (0 < N)%nat → same_lengths track → finite_track track →
  (∀ a b, finite_point a → finite_point b → is_fin (getDistance a b)) →
  (is_maximum (RuntimeTrack.maxAlt rt) (RuntimeTrack.alt rt) ∧
   is_minimum (RuntimeTrack.minAlt rt) (RuntimeTrack.alt rt)) ∧
  (is_maximum (RuntimeTrack.maxLat rt) (RuntimeTrack.lat rt) ∧
   is_minimum (RuntimeTrack.minLat rt) (RuntimeTrack.lat rt)) ∧
  (is_maximum (RuntimeTrack.maxLon rt) (RuntimeTrack.lon rt) ∧
   is_minimum (RuntimeTrack.minLon rt) (RuntimeTrack.lon rt)) ∧
  (is_maximum (RuntimeTrack.maxTimeSec rt) (RuntimeTrack.timeSec rt) ∧
   is_minimum (RuntimeTrack.minTimeSec rt) (RuntimeTrack.timeSec rt)) ∧
  (is_maximum (RuntimeTrack.maxVx rt) (RuntimeTrack.vx rt) ∧
   is_minimum (RuntimeTrack.minVx rt) (RuntimeTrack.vx rt)) ∧
  (is_maximum (RuntimeTrack.maxVz rt) (RuntimeTrack.vz rt) ∧
   is_minimum (RuntimeTrack.minVz rt) (RuntimeTrack.vz rt)) ∧
  is_maximum (RuntimeTrack.maxDistance rt) (distX_at getDistance track <$> seq 0 N).
Proof.
  intros track rt N HN Hlen Hfin Hdist. subst rt.
  rewrite protoToRuntimeTrack_tabulate. fold track N.
  cbn [RuntimeTrack.maxAlt RuntimeTrack.minAlt RuntimeTrack.maxLat RuntimeTrack.minLat
       RuntimeTrack.maxLon RuntimeTrack.minLon RuntimeTrack.maxTimeSec RuntimeTrack.minTimeSec
       RuntimeTrack.maxVx RuntimeTrack.minVx RuntimeTrack.maxVz RuntimeTrack.minVz
       RuntimeTrack.maxDistance RuntimeTrack.alt RuntimeTrack.lat RuntimeTrack.lon
       RuntimeTrack.timeSec RuntimeTrack.vx RuntimeTrack.vz].
  pose proof Hfin as (Hlat & Hlon & Halt & Htime).
  pose proof Hlen as (Hlon_len & Halt_len & Htime_len). fold N in Hlon_len, Halt_len, Htime_len.
  assert (∀ a : list num, length a = N → a ≠ []) as Hne.
  { intros a Ha Hnil. rewrite Hnil in Ha. change (0%nat = N) in Ha. lia. }
  assert (finite_list (vx_spec getDistance track <$> seq 0 N)) as Hvx.
  { apply tabulate_finite. intros i Hi. by apply vx_spec_finite. }
  assert (finite_list (vz_spec (protos.alt track) (protos.timeSec track)
                         <$> seq 0 (length (protos.alt track)))) as Hvz.
  { apply tabulate_finite. intros i Hi. apply vz_spec_finite; (done || lia). }
  assert (finite_list (distX_at getDistance track <$> seq 0 N)) as HdistX.
  { apply tabulate_finite. intros i Hi. by apply distX_at_finite. }
  replace (1 `max` N)%nat with N by lia.
  split_and!; (apply Math_max_is_maximum || apply Math_min_is_minimum); try done;
    apply Hne; rewrite ?length_fmap, ?length_seq; done.
Qed.

Lemma extrema_are_true_extrema_witness :
  let track := diffDecodeTrack sample_wire in
  let rt := protoToRuntimeTrack grid_distance "1-0" sample_wire true in
  (0 < length (protos.lat track))%nat ∧ same_lengths track ∧ finite_track track ∧
  (∀ a b, finite_point a → finite_point b → is_fin (grid_distance a b)) ∧
  is_maximum (RuntimeTrack.maxAlt rt) (RuntimeTrack.alt rt) ∧
  is_minimum (RuntimeTrack.minVz rt) (RuntimeTrack.vz rt) ∧
  is_maximum (RuntimeTrack.maxDistance rt)
    (distX_at grid_distance track <$> seq 0 (length (protos.lat track))).
Proof.
  intros track rt.
  assert (0 < length (protos.lat track))%nat as HN by (vm_compute; lia).
  assert (same_lengths track) as Hlen by (vm_compute; repeat split; reflexivity).
  pose proof sample_wire_finite as Hfin.
  pose proof grid_distance_finite as Hdist.
  destruct (extrema_are_true_extrema grid_distance "1-0" sample_wire true HN Hlen Hfin Hdist)
    as ((Hmax & _) & _ & _ & _ & _ & (_ & Hvz) & HdistX).
  split; [exact HN|]. split; [exact Hlen|]. split; [exact Hfin|].
  split; [exact Hdist|]. split; [exact Hmax|]. split; [exact Hvz|exact HdistX].
Defined.

(** ** Ground altitude *)

(** C5. [addGroundAltitude] overwrites [gndAlt] with the decoded altitudes
    when the altitudes array is present and has the length of the
    trajectory: the [gndAlt] of the track after the call is
    [diffDecodeArray(altitudes)] and every other field is what it was.  When
    the array is absent or of another length the call returns without an
    exception and the track is the one it was given, so that a call that
    changes the track had an array of the length of the trajectory; on a
    track fresh from [protoToRuntimeTrack], [gndAlt] is then still the
    zero-filled placeholder. *)
Theorem addGroundAltitude_overwrites_on_match (track : RuntimeTrack.t)
    (gndAlt : protos.GroundAltitude) :
  (∀ altitudes,
     protos.altitudes gndAlt = Some altitudes →
     length altitudes = length (RuntimeTrack.lat track) →
     ∃ track',
       addGroundAltitude (Some track) gndAlt = Ok (Some track') ∧
       RuntimeTrack.gndAlt track' = math.diffDecodeArray altitudes math.default_scale ∧
       unchanged_but_gndAlt track track') ∧
  ((∀ altitudes,
      protos.altitudes gndAlt = Some altitudes →
      length altitudes ≠ length (RuntimeTrack.lat track)) →
   addGroundAltitude (Some track) gndAlt = Ok (Some track)) ∧
  (∀ track',
     addGroundAltitude (Some track) gndAlt = Ok (Some track') →
     track' ≠ track →
     ∃ altitudes,
       protos.altitudes gndAlt = Some altitudes ∧
       length altitudes = length (RuntimeTrack.lat track)) ∧
  (∀ getDistance id differentialTrack isPostProcessed,
     track = protoToRuntimeTrack getDistance id differentialTrack isPostProcessed →
     (∀ altitudes,
        protos.altitudes gndAlt = Some altitudes →
        length altitudes ≠ length (RuntimeTrack.lat track)) →
     ∃ track',
       addGroundAltitude (Some track) gndAlt = Ok (Some track') ∧
       RuntimeTrack.gndAlt track' =
         Array_fill (length (RuntimeTrack.lat track')) zero).
Proof.
  assert ((∀ altitudes,
      protos.altitudes gndAlt = Some altitudes →
      length altitudes ≠ length (RuntimeTrack.lat track)) →
   addGroundAltitude (Some track) gndAlt = Ok (Some track)) as Hskip.
  { intros Hdiff. unfold addGroundAltitude.
    destruct (protos.altitudes gndAlt) as [altitudes|]; [|reflexivity].
    rewrite bool_decide_eq_false_2; [reflexivity|]. by apply Hdiff. }
  split_and!.
  - intros altitudes Halt Hlen. unfold addGroundAltitude. rewrite Halt.
    rewrite bool_decide_eq_true_2 by done.
    eexists. split; [reflexivity|]. split; [reflexivity|].
    unfold unchanged_but_gndAlt. cbn. repeat split.
  - exact Hskip.
  - intros track' Hcall Hchanged. unfold addGroundAltitude in Hcall.
    destruct (protos.altitudes gndAlt) as [altitudes|]; [|congruence].
    case_bool_decide as Hlen; [|congruence].
    by exists altitudes.
  - intros getDistance id differentialTrack isPostProcessed -> Hdiff.
    eexists. split; [by apply Hskip|].
    rewrite protoToRuntimeTrack_tabulate. reflexivity.
Qed.

Lemma addGroundAltitude_overwrites_on_match_witness :
  let track := protoToRuntimeTrack grid_distance "1-0" sample_wire true in
  (protos.altitudes sample_ground = Some (Fin <$> [90; 5; -3; 1]%Q) ∧
   length (Fin <$> [90; 5; -3; 1]%Q) = length (RuntimeTrack.lat track) ∧
   ∃ track',
     addGroundAltitude (Some track) sample_ground = Ok (Some track') ∧
     RuntimeTrack.gndAlt track' = Fin <$> [90; 95; 92; 93]%Q ∧
     RuntimeTrack.alt track' = RuntimeTrack.alt track) ∧
  ((∀ altitudes, protos.altitudes short_ground = Some altitudes →
                 length altitudes ≠ length (RuntimeTrack.lat track)) ∧
   addGroundAltitude (Some track) short_ground = Ok (Some track)).
Proof.
  intros track.
  assert (length (Fin <$> [90; 5; -3; 1]%Q) = length (RuntimeTrack.lat track)) as Hlen.
  { subst track. rewrite protoToRuntimeTrack_tabulate. reflexivity. }
  assert (∀ altitudes, protos.altitudes short_ground = Some altitudes →
                       length altitudes ≠ length (RuntimeTrack.lat track)) as Hdiff.
  { intros altitudes [= <-]. subst track. rewrite protoToRuntimeTrack_tabulate.
    cbn. lia. }
  split.
  - split; [reflexivity|]. split; [exact Hlen|].
    destruct (proj1 (addGroundAltitude_overwrites_on_match track sample_ground)
                _ eq_refl Hlen) as (track' & Hcall & Hgnd & Hsame).
    exists track'. split; [exact Hcall|]. split.
    + rewrite Hgnd. vm_compute. reflexivity.
    + exact (proj1 (proj2 (proj2 (proj2 (proj2 (proj2 (proj2 (proj2 Hsame)))))))).
  - split; [exact Hdiff|].
    exact (proj1 (proj2 (addGroundAltitude_overwrites_on_match track short_ground)) Hdiff).
Defined.

(** ** Zero elapsed time *)

(** A total that is not above zero stays so when a step that is not above
    zero is added: NaN stays NaN, a negative or zero number stays negative
    or zero. *)
Lemma add_not_positive (x y : num) :
  (x >? zero) = false → (y >? zero) = false → (x + y >? zero) = false.
Proof.
  destruct x as [a| | |], y as [b| | |]; try done.
  intros Ha%gtb_fin_false Hb%gtb_fin_false. apply gtb_fin_false.
  rewrite Qred_correct. change (inject_Z 0) with 0%Q in *. lra.
Qed.

Lemma add_times_not_positive (k : nat) (x start : num) :
  (x >? zero) = false → (start >? zero) = false →
  (add_times k x start >? zero) = false.
Proof.
  intros Hx. revert start. induction k as [|k IH]; intros start Hstart; [done|].
  cbn [add_times]. apply IH. by apply add_not_positive.
Qed.

Lemma accumulate_not_positive (steps : nat) (limit stepDist stepSec : num) :
  (stepSec >? zero) = false →
  ((accumulate steps limit stepDist stepSec zero zero).2 >? zero) = false.
Proof.
  intros Hstep.
  destruct (accumulate_closed steps limit stepDist stepSec zero zero)
    as (k & _ & _ & -> & _). cbn [snd].
  by apply add_times_not_positive.
Qed.

(** Equal neighbours give a step that is not above zero, whatever the
    numbers are. *)
Lemma sub_equal_not_positive (x y : num) : x ≈ y → (x - y >? zero) = false.
Proof.
  destruct x as [a| | |], y as [b| | |]; try done.
  cbn [eqv]. intros Hab. apply gtb_fin_false. rewrite Qred_correct.
  change (inject_Z 0) with 0%Q. lra.
Qed.

Lemma eqv_sym (x y : num) : x ≈ y → y ≈ x.
Proof. by destruct x, y. Qed.

Lemma step_at_equal_times (timeSec : list num) (i hi : nat) :
  (i ≤ hi)%nat → equal_times timeSec (i - 1) hi → (step_at timeSec i >? zero) = false.
Proof.
  intros Hi Heq. destruct i as [|j]; [reflexivity|].
  cbn [step_at]. apply sub_equal_not_positive, eqv_sym, Heq. lia.
Qed.

(** C6, counterexample.  On the stalled track the times of fixes 1, 2 and 3
    are equal, so all consecutive times of the window of fix 1 are equal; yet
    the window adds the step into fix 1, which took 10 seconds, twice: the
    horizontal speed there is 40 and the vertical speed 0.5, not 0. *)
Lemma equal_times_in_window_give_nonzero_speed :
  let track := diffDecodeTrack stalled_wire in
  let rt := protoToRuntimeTrack grid_distance "1-0" stalled_wire true in
  let N := length (protos.lat track) in
  (1 < N)%nat ∧
  equal_times (protos.timeSec track) 1 (1 + window_steps N 65 1) ∧
  equal_times (protos.timeSec track) 1 (1 + window_steps N 35 1) ∧
  RuntimeTrack.vx rt !! 1%nat = Some (Fin 40) ∧
  RuntimeTrack.vz rt !! 1%nat = Some (Fin (1 # 2)) ∧
  ¬ (RuntimeTrack.vx rt !! 1%nat = Some zero ∨ RuntimeTrack.vz rt !! 1%nat = Some zero).
Proof.
  intros track rt N.
  assert (∀ hi, hi = 3%nat → equal_times (protos.timeSec track) 1 hi) as Heq.
  { intros hi -> j Hj. assert (j = 1 ∨ j = 2)%nat as [-> | ->] by lia;
      vm_compute; reflexivity. }
  assert (RuntimeTrack.vx rt !! 1%nat = Some (Fin 40)) as Hvx
    by (vm_compute; reflexivity).
  assert (RuntimeTrack.vz rt !! 1%nat = Some (Fin (1 # 2))) as Hvz
    by (vm_compute; reflexivity).
  split; [vm_compute; lia|].
  split; [apply Heq; vm_compute; reflexivity|].
  split; [apply Heq; vm_compute; reflexivity|].
  split; [exact Hvx|]. split; [exact Hvz|].
  rewrite Hvx, Hvz. intros [H | H]; discriminate H.
Qed.

(** C6, amended.  For every index [i] of the trajectory: when the elapsed
    time accumulated over the window of [i] is not strictly positive (zero,
    negative or NaN), the horizontal and the vertical speed at [i] are
    exactly 0; this is the case when the step into [i] has no positive
    duration, and so when all consecutive times are equal from the fix that
    precedes [i] to the end of the window. *)
Theorem zero_elapsed_time_gives_zero_speed (getDistance : LatLon.t → LatLon.t → num)
    (id : string) (differentialTrack : protos.Track) (isPostProcessed : bool) (i : nat) :
  let track := diffDecodeTrack differentialTrack in
  let rt := protoToRuntimeTrack getDistance id differentialTrack isPostProcessed in
  let N := length (protos.lat track) in
  let timeSec := protos.timeSec track in
  (i < N)%nat → length (protos.alt track) = N →
  (((vx_totals getDistance track i).2 >? zero) = false →
   RuntimeTrack.vx rt !! i = Some zero) ∧
  (((vz_totals (protos.alt track) timeSec i).2 >? zero) = false →
   RuntimeTrack.vz rt !! i = Some zero) ∧
  ((step_at timeSec i >? zero) = false →
   RuntimeTrack.vx rt !! i = Some zero ∧ RuntimeTrack.vz rt !! i = Some zero) ∧
  (equal_times timeSec (i - 1) (i + window_steps N 65 i) →
   RuntimeTrack.vx rt !! i = Some zero ∧ RuntimeTrack.vz rt !! i = Some zero).
Proof.
  intros track rt N timeSec Hi Halt. subst rt.
  rewrite protoToRuntimeTrack_tabulate. fold track N timeSec.
  cbn [RuntimeTrack.vx RuntimeTrack.vz]. rewrite Halt.
  rewrite !lookup_tabulate by done.
  assert (((vx_totals getDistance track i).2 >? zero) = false →
          Some (vx_spec getDistance track i) = Some zero) as Hvx.
  { unfold vx_spec. destruct (vx_totals getDistance track i) as [D T].
    cbn [snd]. by intros ->. }
  assert (((vz_totals (protos.alt track) timeSec i).2 >? zero) = false →
          Some (vz_spec (protos.alt track) timeSec i) = Some zero) as Hvz.
  { unfold vz_spec. destruct (vz_totals (protos.alt track) timeSec i) as [D T].
    cbn [snd]. by intros ->. }
  assert ((step_at timeSec i >? zero) = false →
          Some (vx_spec getDistance track i) = Some zero ∧
          Some (vz_spec (protos.alt track) timeSec i) = Some zero) as Hstep.
  { intros Hstep. split.
    - apply Hvx. by apply accumulate_not_positive.
    - apply Hvz. by apply accumulate_not_positive. }
  split_and!; [exact Hvx|exact Hvz|exact Hstep|].
  intros Heq. apply Hstep. apply (step_at_equal_times timeSec i _ (Nat.le_add_r _ _) Heq).
Qed.

Lemma zero_elapsed_time_gives_zero_speed_witness :
  let wire := diffEncodeTrack
    {| protos.pilot := "pilot";
       protos.lat := Fin <$> [10; 10; 10]%Q;
       protos.lon := Fin <$> [0; 1 # 1000; 2 # 1000]%Q;
       protos.alt := Fin <$> [100; 110; 120]%Q;
       protos.timeSec := Fin <$> [5; 5; 5]%Q |} in
  let track := diffDecodeTrack wire in
  let rt := protoToRuntimeTrack grid_distance "1-0" wire true in
  (1 < length (protos.lat track))%nat ∧
  length (protos.alt track) = length (protos.lat track) ∧
  equal_times (protos.timeSec track) 0 (1 + window_steps (length (protos.lat track)) 65 1) ∧
  RuntimeTrack.vx rt !! 1%nat = Some zero ∧ RuntimeTrack.vz rt !! 1%nat = Some zero.
Proof.
  intros wire track rt.
  assert (1 < length (protos.lat track))%nat as Hi by (vm_compute; lia).
  assert (length (protos.alt track) = length (protos.lat track)) as Halt by reflexivity.
  assert (equal_times (protos.timeSec track) 0
            (1 + window_steps (length (protos.lat track)) 65 1)) as Heq.
  { intros j Hj. assert (j = 0 ∨ j = 1)%nat as [-> | ->] by (vm_compute in Hj; lia);
      vm_compute; reflexivity. }
  split; [exact Hi|]. split; [exact Halt|]. split; [exact Heq|].
  exact (proj2 (proj2 (proj2
    (zero_elapsed_time_gives_zero_speed grid_distance "1-0" wire true 1 Hi Halt))) Heq).
Defined.

(** ** Lengths *)

Lemma derived_lengths_set_gndAlt (t : RuntimeTrack.t) (v : list num) :
  derived_lengths t → length v = length (RuntimeTrack.lat t) →
  derived_lengths (RuntimeTrack.set_gndAlt t v).
Proof.
  unfold derived_lengths. cbn. intros (Hvx & Hvz & _ & Hh & Hla & Hlo) Hv. done.
Qed.

(** C7. For a decoded trajectory whose arrays have one length [N], the
    arrays [vx], [vz], [gndAlt], [heading], [lookAtLat] and [lookAtLon] of
    the assembled track all have length [N]; the overlay merges keep this:
    [addGroundAltitude] replaces [gndAlt] only by an array of length [N], and
    [addAirspaces] touches none of the arrays. *)
Theorem derived_arrays_have_track_length :
  (∀ (getDistance : LatLon.t → LatLon.t → num) id differentialTrack isPostProcessed,
     same_lengths (diffDecodeTrack differentialTrack) →
     let rt := protoToRuntimeTrack getDistance id differentialTrack isPostProcessed in
     length (RuntimeTrack.lat rt) = length (protos.lat (diffDecodeTrack differentialTrack)) ∧
     derived_lengths rt) ∧
  (∀ t gndAlt t',
     derived_lengths t → addGroundAltitude (Some t) gndAlt = Ok (Some t') →
     length (RuntimeTrack.lat t') = length (RuntimeTrack.lat t) ∧ derived_lengths t') ∧
  (∀ t airspaces t',
     derived_lengths t → addAirspaces (Some t) airspaces = Ok (Some t') →
     length (RuntimeTrack.lat t') = length (RuntimeTrack.lat t) ∧ derived_lengths t').
Proof.
  split_and!.
  - intros getDistance id differentialTrack isPostProcessed (Hlon & Halt & _) rt.
    subst rt. rewrite protoToRuntimeTrack_tabulate.
    unfold derived_lengths, Array_fill. cbn.
    rewrite !length_fmap, !length_seq, !length_replicate. done.
  - intros t gndAlt t' Ht. unfold addGroundAltitude.
    destruct (protos.altitudes gndAlt) as [altitudes|]; [|by intros [= <-]].
    case_bool_decide as Hlen; intros [= <-]; [|done].
    split; [reflexivity|].
    apply derived_lengths_set_gndAlt; [done|]. by rewrite diffDecodeArray_length.
  - intros t airspaces t' Ht [= <-]. done.
Qed.

Lemma derived_arrays_have_track_length_witness :
  let rt := protoToRuntimeTrack grid_distance "1-0" sample_wire true in
  same_lengths (diffDecodeTrack sample_wire) ∧ derived_lengths rt ∧
  ∃ t', addGroundAltitude (Some rt) sample_ground = Ok (Some t') ∧ derived_lengths t'.
Proof.
  intros rt.
  assert (same_lengths (diffDecodeTrack sample_wire)) as Hlen
    by (vm_compute; repeat split; reflexivity).
  destruct derived_arrays_have_track_length as (Hbuild & Hground & _).
  destruct (Hbuild grid_distance "1-0" sample_wire true Hlen) as [_ Hrt].
  split; [exact Hlen|]. split; [exact Hrt|].
  destruct (addGroundAltitude (Some rt) sample_ground) as [[t'|]|e] eqn:Hadd.
  - exists t'. split; [reflexivity|]. exact (proj2 (Hground rt sample_ground t' Hrt Hadd)).
  - exfalso. revert Hadd. unfold addGroundAltitude. cbn [protos.altitudes sample_ground].
    case_bool_decide; discriminate.
  - exfalso. revert Hadd. unfold addGroundAltitude. cbn [protos.altitudes sample_ground].
    case_bool_decide; discriminate.
Defined.

(** ** Track ids *)

Section TrackIds.
Local Open Scope string_scope.

Lemma all_digits_app (s t : string) :
  all_digits (s ++ t) = all_digits s && all_digits t.
Proof.
  induction s as [|c s IH]; [reflexivity|].
  change (all_digits (String c s ++ t)) with (Str.is_digit c && all_digits (s ++ t)).
  rewrite IH. by rewrite andb_assoc.
Qed.

(** The digits of a number are digits, and there is at least one. *)
Lemma string_of_uint_digits (u : Decimal.uint) :
  all_digits (NilEmpty.string_of_uint u) = true.
Proof. induction u; cbn; done. Qed.

Lemma digits_all_digits (n : N) : all_digits (Str.digits n) = true.
Proof. apply string_of_uint_digits. Qed.

Lemma digits_nonempty (n : N) : Str.digits n ≠ "".
Proof.
  unfold Str.digits. destruct n as [|p]; [done|].
  cbn [N.to_uint]. 
  pose proof (DecimalPos.Unsigned.to_uint_nonnil p) as Hp.
  destruct (Pos.to_uint p); done.
Qed.

(** Reading digits back: the accumulator of the code is the accumulator of
    the standard conversion. *)
Lemma Number_from_pos (u : Decimal.uint) (acc : positive) :
  Str.Number_from (N.pos acc) (NilEmpty.string_of_uint u) = N.pos (Pos.of_uint_acc u acc).
Proof.
  revert acc. induction u; intros acc; cbn [NilEmpty.string_of_uint Str.Number_from Pos.of_uint_acc];
    [reflexivity|..]; rewrite <- IHu; f_equal;
    match goal with
    | |- context [(N.of_nat (nat_of_ascii ?c) - 48)%N] =>
        let d := eval vm_compute in (N.of_nat (nat_of_ascii c) - 48)%N in
        change (N.of_nat (nat_of_ascii c) - 48)%N with d
    end; lia.
Qed.

Lemma Number_from_0 (u : Decimal.uint) :
  Str.Number_from 0 (NilEmpty.string_of_uint u) = N.of_uint u.
Proof.
  induction u; cbn [NilEmpty.string_of_uint Str.Number_from];
    [reflexivity|exact IHu|..]; exact (Number_from_pos u _).
Qed.

Lemma Number_digits (n : N) : Str.Number (Str.digits n) = Z.of_N n.
Proof.
  unfold Str.Number, Str.digits. rewrite Number_from_0.
  by rewrite DecimalN.Unsigned.of_to.
Qed.

(** What [span_digits] returns splits the string after a run of digits. *)
Lemma span_digits_split (s ds tail : string) :
  Str.span_digits s = (ds, tail) → s = ds ++ tail ∧ all_digits ds = true.
Proof.
  revert ds tail. induction s as [|c s IH]; intros ds tail.
  - intros [= <- <-]. done.
  - cbn [Str.span_digits]. destruct (Str.is_digit c) eqn:Hc.
    + destruct (Str.span_digits s) as [ds' tail'] eqn:Hs.
      intros [= <- <-]. destruct (IH ds' tail' eq_refl) as [-> Hds].
      split; [reflexivity|]. cbn. by rewrite Hc.
    + intros [= <- <-]. done.
Qed.

(** The run stops at the dash. *)
Lemma span_digits_dash (ds rest : string) :
  all_digits ds = true → Str.span_digits (ds ++ "-" ++ rest) = (ds, "-" ++ rest).
Proof.
  induction ds as [|c ds IH]; [reflexivity|].
  intros H. change (Str.is_digit c && all_digits ds = true) in H.
  apply andb_true_iff in H as [Hc Hds].
  change (Str.span_digits (String c ds ++ "-" ++ rest)) with
    (if Str.is_digit c
     then let '(ds', tail) := Str.span_digits (ds ++ "-" ++ rest) in (String c ds', tail)
     else ("", String c (ds ++ "-" ++ rest))).
  rewrite Hc. by rewrite (IH Hds).
Qed.

Lemma match_digits_dash_Some (ds rest : string) :
  ds ≠ "" → all_digits ds = true →
  Str.match_digits_dash (ds ++ "-" ++ rest) = Some ds.
Proof.
  intros Hne Hds. unfold Str.match_digits_dash. rewrite span_digits_dash by done.
  destruct ds; done.
Qed.

Lemma match_digits_dash_starts (s m : string) :
  Str.match_digits_dash s = Some m → starts_with_digits_dash s.
Proof.
  unfold Str.match_digits_dash.
  destruct (Str.span_digits s) as [ds tail] eqn:Hspan.
  destruct (span_digits_split s ds tail Hspan) as [-> Hds].
  destruct ds as [|c ds]; [done|].
  destruct tail as [|d tail]; [done|].
  destruct (Ascii.ascii_dec d "-") as [->|Hd].
  - intros _. exists (String c ds), tail. done.
  - intros Hm. exfalso. revert Hm.
    destruct d as [[] [] [] [] [] [] [] []]; try discriminate. by destruct Hd.
Qed.

Lemma of_N_small (n : N) : (n < 10 ^ 21)%N → Str.of_N n = Str.digits n.
Proof.
  intros Hn. unfold Str.of_N. by rewrite (proj2 (N.ltb_lt _ _) Hn).
Qed.

(** C8, counterexample.  From [10^21] on a number is printed in exponent
    form: the id of group [10^21] is ["1e+21-0"], in which no dash follows
    the leading digit. *)
Lemma extractGroupId_loses_large_ids :
  (0 <= 10 ^ 21)%Z ∧
  createTrackId (10 ^ 21) 0 = "1e+21-0" ∧
  extractGroupId (createTrackId (10 ^ 21) 0) = (-1)%Z ∧
  extractGroupId (createTrackId (10 ^ 21) 0) ≠ (10 ^ 21)%Z.
Proof. split; [done|]. split; [by vm_compute|]. split; [by vm_compute|]. by vm_compute. Qed.

(** C8, amended.  For every natural number [groupId] below [10^21] and
    every integer [groupIndex], [extractGroupId (createTrackId groupId
    groupIndex)] is [groupId]; for every string that does not begin with a
    run of digits followed by a dash, [extractGroupId] returns [-1]; in
    particular [extractGroupId "42-3" = 42] and [extractGroupId "bogus" = -1]. *)
Theorem extractGroupId_createTrackId :
  (∀ groupId groupIndex : Z,
     (0 <= groupId < 10 ^ 21)%Z →
     extractGroupId (createTrackId groupId groupIndex) = groupId) ∧
  (∀ s : string, ¬ starts_with_digits_dash s → extractGroupId s = (-1)%Z) ∧
  extractGroupId "42-3" = 42%Z ∧
  extractGroupId "bogus" = (-1)%Z.
Proof.
  split_and!.
  - intros groupId groupIndex [Hlo Hhi]. unfold createTrackId, extractGroupId.
    assert (Str.of_Z groupId = Str.digits (Z.to_N groupId)) as ->.
    { unfold Str.of_Z. rewrite (proj2 (Z.ltb_ge _ _) Hlo).
      apply of_N_small. apply N2Z.inj_lt. rewrite Z2N.id by done.
      by rewrite N2Z.inj_pow. }
    rewrite match_digits_dash_Some
      by (apply digits_nonempty || apply digits_all_digits).
    rewrite Number_digits. by apply Z2N.id.
  - intros s Hs. unfold extractGroupId.
    destruct (Str.match_digits_dash s) as [m|] eqn:Hm; [|reflexivity].
    exfalso. apply Hs. by eapply match_digits_dash_starts.
  - by vm_compute.
  - by vm_compute.
Qed.

Lemma extractGroupId_createTrackId_witness :
  ((0 <= 42 < 10 ^ 21)%Z ∧ extractGroupId (createTrackId 42 3) = 42%Z) ∧
  (¬ starts_with_digits_dash "12x-4" ∧ extractGroupId "12x-4" = (-1)%Z).
Proof.
  destruct extractGroupId_createTrackId as (Hround & Hnone & _).
  assert (0 <= 42 < 10 ^ 21)%Z as Hrange by (split; [lia|reflexivity]).
  assert (¬ starts_with_digits_dash "12x-4") as Hnot.
  { intros (ds & rest & Hne & Hds & Heq).
    destruct ds as [|c1 ds]; [done|]. injection Heq as <- Heq.
    destruct ds as [|c2 ds]; [discriminate|]. injection Heq as <- Heq.
    destruct ds as [|c3 ds]; [discriminate|]. injection Heq as <- Heq.
    cbn in Hds. discriminate. }
  split.
  - split; [exact Hrange|]. exact (Hround 42%Z 3%Z Hrange).
  - split; [exact Hnot|]. exact (Hnone "12x-4" Hnot).
Defined.

End TrackIds.

(** ** Groups of tracks *)

Abbreviation ground_body :=
  (λ (rtTracks : list RuntimeTrack.t) (gndAlt : protos.GroundAltitude) (i : nat),
     t ← addGroundAltitude (rtTracks !! i) gndAlt; Ok (store rtTracks i t)).

Abbreviation airspaces_body :=
  (λ (rtTracks : list RuntimeTrack.t) (asp : protos.Airspaces) (i : nat),
     t ← addAirspaces (rtTracks !! i) asp; Ok (store rtTracks i t)).

Lemma throw_is_TypeError {A : Type} (e : error) : @Throw A e = Throw TypeError.
Proof. by destruct e. Qed.

(** Pushing one element per entry builds the indexed map of the entries. *)
Lemma forEach_push {A B : Type} (f : nat → A → B) (xs : list A) (k : nat) (acc : list B) :
  forEach_from k (λ acc x i, Ok (acc ++ [f i x])) xs acc =
  Ok (acc ++ imap (λ j x, f (k + j)%nat x) xs).
Proof.
  revert k acc. induction xs as [|x xs IH]; intros k acc.
  - cbn. by rewrite app_nil_r.
  - cbn [forEach_from imap]. cbn [mbind result_bind]. rewrite IH.
    rewrite <- app_assoc. cbn [app]. rewrite Nat.add_0_r.
    do 3 f_equal. apply imap_ext. intros j y _. cbn. f_equal. lia.
Qed.

Lemma store_length (rtTracks : list RuntimeTrack.t) (i : nat) (t : option RuntimeTrack.t) :
  length (store rtTracks i t) = length rtTracks.
Proof. destruct t; cbn; [apply length_insert|reflexivity]. Qed.

Lemma ground_body_length rtTracks gndAlt i rtTracks' :
  ground_body rtTracks gndAlt i = Ok rtTracks' → length rtTracks' = length rtTracks.
Proof.
  cbv beta. destruct (addGroundAltitude (rtTracks !! i) gndAlt) as [t|e];
    cbn [mbind result_bind]; [|discriminate].
  intros [= <-]. apply store_length.
Qed.

Lemma airspaces_body_length rtTracks asp i rtTracks' :
  airspaces_body rtTracks asp i = Ok rtTracks' → length rtTracks' = length rtTracks.
Proof.
  cbv beta. destruct (addAirspaces (rtTracks !! i) asp) as [t|e];
    cbn [mbind result_bind]; [|discriminate].
  intros [= <-]. apply store_length.
Qed.

(** A ground altitude entry that carries an array, met where there is no
    track, throws. *)
Lemma ground_body_throw rtTracks gndAlt i :
  is_Some (protos.altitudes gndAlt) → (length rtTracks ≤ i)%nat →
  ground_body rtTracks gndAlt i = Throw TypeError.
Proof.
  intros [altitudes Halt] Hi. cbv beta. rewrite (lookup_ge_None_2 rtTracks i Hi).
  unfold addGroundAltitude. rewrite Halt. reflexivity.
Qed.

Lemma airspaces_body_throw rtTracks asp i :
  (length rtTracks ≤ i)%nat → airspaces_body rtTracks asp i = Throw TypeError.
Proof. intros Hi. cbv beta. by rewrite (lookup_ge_None_2 rtTracks i Hi). Qed.

Lemma forEach_ground_throw (entries : list protos.GroundAltitude) (k : nat)
    (rtTracks : list RuntimeTrack.t) :
  (∃ j e, entries !! j = Some e ∧ is_Some (protos.altitudes e) ∧
          (length rtTracks ≤ k + j)%nat) →
  forEach_from k ground_body entries rtTracks = Throw TypeError.
Proof.
  revert k rtTracks. induction entries as [|e0 entries IH]; intros k rtTracks (j & e & Hj & He & Hlen).
  - done.
  - cbn [forEach_from]. destruct j as [|j].
    + injection Hj as ->. rewrite ground_body_throw; [done|done|lia].
    + cbv beta.
      match goal with
      | |- context [mbind ?g (addGroundAltitude ?a ?b)] =>
          destruct (mbind g (addGroundAltitude a b)) as [rtTracks'|err] eqn:Hbody
      end; cbn [mbind result_bind]; [|apply throw_is_TypeError].
      apply IH. exists j, e. split_and!; [done|done|].
      rewrite (ground_body_length _ _ _ _ Hbody). lia.
Qed.

Lemma forEach_airspaces_throw (entries : list protos.Airspaces) (k : nat)
    (rtTracks : list RuntimeTrack.t) :
  (∃ j, (j < length entries)%nat ∧ (length rtTracks ≤ k + j)%nat) →
  forEach_from k airspaces_body entries rtTracks = Throw TypeError.
Proof.
  revert k rtTracks.
  induction entries as [|a0 entries IH]; intros k rtTracks (j & Hj & Hlen).
  - cbn in Hj. lia.
  - cbn [forEach_from]. destruct j as [|j].
    + rewrite airspaces_body_throw; [done|lia].
    + cbv beta.
      match goal with
      | |- context [mbind ?g (addAirspaces ?a ?b)] =>
          destruct (mbind g (addAirspaces a b)) as [rtTracks'|err] eqn:Hbody
      end; cbn [mbind result_bind]; [|apply throw_is_TypeError].
      apply IH. exists j. cbn [length] in Hj. split; [lia|].
      rewrite (airspaces_body_length _ _ _ _ Hbody). lia.
Qed.

Section Projection.

(** What the overlay merges leave alone: a view of the track that neither
    [gndAlt] nor [airspaces] changes. *)
Context {B : Type} (f : RuntimeTrack.t → B).
Hypothesis f_gndAlt : ∀ t v, f (RuntimeTrack.set_gndAlt t v) = f t.
Hypothesis f_airspaces : ∀ t v, f (RuntimeTrack.set_airspaces t v) = f t.

Lemma store_same rtTracks i t t' :
  rtTracks !! i = Some t → f t' = f t → f <$> store rtTracks i (Some t') = f <$> rtTracks.
Proof.
  intros Hi Hf. cbn [store]. rewrite list_fmap_insert, Hf.
  apply list_insert_id. by rewrite list_lookup_fmap, Hi.
Qed.

Lemma ground_body_ok rtTracks gndAlt i :
  (is_Some (protos.altitudes gndAlt) → (i < length rtTracks)%nat) →
  ∃ rtTracks', ground_body rtTracks gndAlt i = Ok rtTracks' ∧
               f <$> rtTracks' = f <$> rtTracks.
Proof.
  intros Hi. cbv beta. unfold addGroundAltitude.
  destruct (protos.altitudes gndAlt) as [altitudes|].
  - destruct (lookup_lt_is_Some_2 rtTracks i (Hi (mk_is_Some _ _ eq_refl))) as [t Ht].
    rewrite Ht. case_bool_decide; cbn [mbind result_bind]; eexists; (split; [reflexivity|]);
      (eapply store_same; [exact Ht|]); (apply f_gndAlt || reflexivity).
  - cbn [mbind result_bind]. eexists. split; [reflexivity|].
    destruct (rtTracks !! i) as [t|] eqn:Ht; [|reflexivity].
    eapply store_same; [exact Ht|reflexivity].
Qed.

Lemma airspaces_body_ok rtTracks asp i :
  (i < length rtTracks)%nat →
  ∃ rtTracks', airspaces_body rtTracks asp i = Ok rtTracks' ∧
               f <$> rtTracks' = f <$> rtTracks.
Proof.
  intros Hi. cbv beta. destruct (lookup_lt_is_Some_2 rtTracks i Hi) as [t Ht].
  rewrite Ht. cbn [addAirspaces mbind result_bind]. eexists. split; [reflexivity|].
  eapply store_same; [exact Ht|apply f_airspaces].
Qed.

Lemma forEach_ground_ok (entries : list protos.GroundAltitude) (k : nat)
    (rtTracks : list RuntimeTrack.t) :
  (∀ j e, entries !! j = Some e → is_Some (protos.altitudes e) →
          (k + j < length rtTracks)%nat) →
  ∃ rtTracks', forEach_from k ground_body entries rtTracks = Ok rtTracks' ∧
               f <$> rtTracks' = f <$> rtTracks.
Proof.
  revert k rtTracks. induction entries as [|e0 entries IH]; intros k rtTracks Hsafe.
  - by exists rtTracks.
  - cbn [forEach_from].
    destruct (ground_body_ok rtTracks e0 k) as (rt1 & -> & Hrt1).
    { intros He. specialize (Hsafe 0%nat e0 eq_refl He). lia. }
    cbn [mbind result_bind].
    destruct (IH (S k) rt1) as (rt2 & Hrt2 & Hf2).
    { intros j e Hj He. specialize (Hsafe (S j) e Hj He).
      rewrite <- (length_fmap f), Hrt1, length_fmap. lia. }
    exists rt2. split; [exact Hrt2|]. by rewrite Hf2.
Qed.

Lemma forEach_airspaces_ok (entries : list protos.Airspaces) (k : nat)
    (rtTracks : list RuntimeTrack.t) :
  (k + length entries ≤ length rtTracks)%nat →
  ∃ rtTracks', forEach_from k airspaces_body entries rtTracks = Ok rtTracks' ∧
               f <$> rtTracks' = f <$> rtTracks.
Proof.
  revert k rtTracks. induction entries as [|a0 entries IH]; intros k rtTracks Hfit.
  - by exists rtTracks.
  - cbn [forEach_from]. cbn [length] in Hfit.
    destruct (airspaces_body_ok rtTracks a0 k) as (rt1 & -> & Hrt1); [lia|].
    cbn [mbind result_bind].
    destruct (IH (S k) rt1) as (rt2 & Hrt2 & Hf2).
    { rewrite <- (length_fmap f), Hrt1, length_fmap. lia. }
    exists rt2. split; [exact Hrt2|]. by rewrite Hf2.
Qed.

End Projection.

Lemma forEach_ground_length (entries : list protos.GroundAltitude) (k : nat)
    (rtTracks rtTracks' : list RuntimeTrack.t) :
  forEach_from k ground_body entries rtTracks = Ok rtTracks' →
  length rtTracks' = length rtTracks.
Proof.
  revert k rtTracks. induction entries as [|e0 entries IH]; intros k rtTracks.
  - by intros [= <-].
  - cbn [forEach_from]. cbv beta.
    match goal with
    | |- context [mbind ?g (addGroundAltitude ?a ?b)] =>
        destruct (mbind g (addGroundAltitude a b)) as [rt1|err] eqn:Hbody
    end; cbn [mbind result_bind]; [|discriminate].
    intros Hrest. rewrite (IH _ _ Hrest). exact (ground_body_length _ _ _ _ Hbody).
Qed.

Lemma gtb_0_decide (n : Z) : (n >? 0)%Z = bool_decide (0 < n)%Z.
Proof.
  rewrite Z.gtb_ltb. destruct (0 <? n)%Z eqn:Hn.
  - apply Z.ltb_lt in Hn. by rewrite bool_decide_eq_true_2.
  - apply Z.ltb_ge in Hn. rewrite bool_decide_eq_false_2; [done|lia].
Qed.

Lemma base_set_gndAlt (t : RuntimeTrack.t) (v : list num) :
  base (RuntimeTrack.set_gndAlt t v) = base t.
Proof. reflexivity. Qed.

Lemma base_set_airspaces (t : RuntimeTrack.t) (v : protos.Airspaces) :
  base (RuntimeTrack.set_airspaces t v) = base t.
Proof. reflexivity. Qed.

Lemma identity_base (t : RuntimeTrack.t) : identity (base t) = identity t.
Proof. reflexivity. Qed.

Section WithDistance.
Variable getDistance : LatLon.t → LatLon.t → num.

(** The track [protoToRuntimeTrack] builds for entry [i] of a group. *)
Local Abbreviation group_track g :=
  (λ (i : nat) (protoTrack : protos.Track),
     protoToRuntimeTrack getDistance (createTrackId (protos.id g) (Z.of_nat i)) protoTrack
       (Z.gtb (protos.numPostprocess g) 0)).

Lemma identity_protoToRuntimeTrack (id : string) (p : protos.Track) (b : bool) :
  identity (protoToRuntimeTrack getDistance id p b) = (id, b).
Proof. by rewrite protoToRuntimeTrack_tabulate. Qed.

(** The three steps of a group, with absent containers read as empty. *)
Lemma createGroupTracks_steps (runtimeTracks : list RuntimeTrack.t)
    (g : protos.MetaTrackGroup) :
  createGroupTracks getDistance runtimeTracks g =
  (rtTracks ← forEach ground_body (groundAltitudes_of g) (imap (group_track g) (tracks_of g));
   rtTracks ← forEach airspaces_body (airspaces_of g) rtTracks;
   Ok (runtimeTracks ++ rtTracks)).
Proof.
  unfold createGroupTracks, tracks_of, groundAltitudes_of, airspaces_of, forEach.
  destruct (protos.trackGroupBin g) as [tracks|]; cbn [default].
  - rewrite (forEach_push (group_track g) tracks 0 []).
    cbn [mbind result_bind app].
    destruct (protos.groundAltitudeGroupBin g), (protos.airspacesGroupBin g); reflexivity.
  - cbn [mbind result_bind imap].
    destruct (protos.groundAltitudeGroupBin g), (protos.airspacesGroupBin g); reflexivity.
Qed.

(** An overlay entry that reaches an undefined track makes the group, and
    with it the whole call, throw. *)
Lemma createGroupTracks_throw (runtimeTracks : list RuntimeTrack.t)
    (g : protos.MetaTrackGroup) :
  (∃ j e, groundAltitudes_of g !! j = Some e ∧ is_Some (protos.altitudes e) ∧
          (length (tracks_of g) ≤ j)%nat) ∨
  (length (tracks_of g) < length (airspaces_of g))%nat →
  createGroupTracks getDistance runtimeTracks g = Throw TypeError.
Proof.
  intros Hbad. rewrite createGroupTracks_steps. unfold forEach.
  destruct (forEach_from 0 ground_body (groundAltitudes_of g)
              (imap (group_track g) (tracks_of g))) as [rt1|err] eqn:Hground;
    cbn [mbind result_bind]; [|apply throw_is_TypeError].
  destruct Hbad as [(j & e & Hj & He & Hlen)|Hlen].
  - rewrite forEach_ground_throw in Hground; [done|].
    exists j, e. by rewrite length_imap.
  - rewrite forEach_airspaces_throw; [done|].
    exists (length (tracks_of g)). split; [done|].
    rewrite (forEach_ground_length _ _ _ _ Hground), length_imap. lia.
Qed.

Section Projection.
Context {B : Type} (f : RuntimeTrack.t → B).
Hypothesis f_gndAlt : ∀ t v, f (RuntimeTrack.set_gndAlt t v) = f t.
Hypothesis f_airspaces : ∀ t v, f (RuntimeTrack.set_airspaces t v) = f t.

Lemma createGroupTracks_ok (runtimeTracks : list RuntimeTrack.t)
    (g : protos.MetaTrackGroup) :
  overlays_safe g →
  ∃ rtTracks,
    createGroupTracks getDistance runtimeTracks g = Ok (runtimeTracks ++ rtTracks) ∧
    f <$> rtTracks = f <$> imap (group_track g) (tracks_of g).
Proof.
  intros [Hground Hair]. rewrite createGroupTracks_steps. unfold forEach.
  destruct (forEach_ground_ok f f_gndAlt (groundAltitudes_of g) 0
              (imap (group_track g) (tracks_of g))) as (rt1 & -> & Hrt1).
  { intros j e Hj He. rewrite length_imap. by apply (Hground j e). }
  cbn [mbind result_bind].
  destruct (forEach_airspaces_ok f f_airspaces (airspaces_of g) 0 rt1) as (rt2 & -> & Hrt2).
  { rewrite <- (length_fmap f), Hrt1, length_fmap, length_imap. lia. }
  cbn [mbind result_bind]. exists rt2. split; [reflexivity|]. by rewrite Hrt2.
Qed.

Lemma createRuntimeTracks_from_ok (metaGroups : list protos.MetaTrackGroup)
    (runtimeTracks : list RuntimeTrack.t) :
  Forall overlays_safe metaGroups →
  ∃ rtTracks,
    createRuntimeTracks_from getDistance runtimeTracks metaGroups =
      Ok (runtimeTracks ++ rtTracks) ∧
    f <$> rtTracks =
      flat_map (λ g, f <$> imap (group_track g) (tracks_of g)) metaGroups.
Proof.
  intros Hsafe. revert runtimeTracks.
  induction Hsafe as [|g metaGroups Hg Hrest IH]; intros runtimeTracks.
  - exists []. by rewrite app_nil_r.
  - cbn [createRuntimeTracks_from flat_map].
    destruct (createGroupTracks_ok runtimeTracks g Hg) as (rt1 & -> & Hrt1).
    cbn [mbind result_bind].
    destruct (IH (runtimeTracks ++ rt1)) as (rt2 & -> & Hrt2).
    exists (rt1 ++ rt2). split; [by rewrite app_assoc|].
    by rewrite fmap_app, Hrt1, Hrt2.
Qed.

End Projection.

Lemma createRuntimeTracks_from_throw (metaGroups : list protos.MetaTrackGroup)
    (runtimeTracks : list RuntimeTrack.t) :
  Exists (λ g,
    (∃ j e, groundAltitudes_of g !! j = Some e ∧ is_Some (protos.altitudes e) ∧
            (length (tracks_of g) ≤ j)%nat) ∨
    (length (tracks_of g) < length (airspaces_of g))%nat) metaGroups →
  createRuntimeTracks_from getDistance runtimeTracks metaGroups = Throw TypeError.
Proof.
  intros Hbad. revert runtimeTracks.
  induction Hbad as [g metaGroups Hg|g metaGroups Hrest IH]; intros runtimeTracks;
    cbn [createRuntimeTracks_from].
  - by rewrite createGroupTracks_throw.
  - destruct (createGroupTracks getDistance runtimeTracks g) as [rt1|err];
      cbn [mbind result_bind]; [apply IH|apply throw_is_TypeError].
Qed.

End WithDistance.

(** With arrays in all ground altitude entries, an overlay that does not
    fit has an entry that reaches an undefined track. *)
Lemma overlays_fit_safe (g : protos.MetaTrackGroup) : overlays_fit g → overlays_safe g.
Proof.
  intros [Hground Hair]. split; [|done].
  intros i e Hi _. apply lookup_lt_Some in Hi. lia.
Qed.

Lemma overlays_misfit (g : protos.MetaTrackGroup) :
  arrays_present g → ¬ overlays_fit g →
  (∃ j e, groundAltitudes_of g !! j = Some e ∧ is_Some (protos.altitudes e) ∧
          (length (tracks_of g) ≤ j)%nat) ∨
  (length (tracks_of g) < length (airspaces_of g))%nat.
Proof.
  intros Harrays Hfit. unfold overlays_fit in Hfit.
  destruct (decide (length (airspaces_of g) ≤ length (tracks_of g))%nat) as [Hair|Hair];
    [|right; lia].
  left. assert (length (tracks_of g) < length (groundAltitudes_of g))%nat as Hlen by lia.
  destruct (lookup_lt_is_Some_2 _ _ Hlen) as [e He].
  exists (length (tracks_of g)), e. split_and!; [done| |done].
  exact (Forall_lookup_1 _ _ _ _ Harrays He).
Qed.

(** C9. When every overlay container fits its group, [createRuntimeTracks]
    returns, in group order and within a group in index order, exactly one
    track per decoded trajectory: the track [protoToRuntimeTrack] builds
    from it (up to the overlays merged in afterwards), with the id composed
    from the group id and the index in the group, and [isPostProcessed] true
    if and only if the group's [numPostprocess] is positive.  A group with no
    trajectory container contributes no track. *)
Theorem createRuntimeTracks_one_track_per_trajectory
    (getDistance : LatLon.t → LatLon.t → num) (metaGroups : list protos.MetaTrackGroup) :
  Forall overlays_fit metaGroups →
  ∃ runtimeTracks,
    createRuntimeTracks getDistance metaGroups = Ok runtimeTracks ∧
    base <$> runtimeTracks =
      flat_map (λ g,
        imap (λ i protoTrack,
          base (protoToRuntimeTrack getDistance
                  (createTrackId (protos.id g) (Z.of_nat i)) protoTrack
                  (bool_decide (0 < protos.numPostprocess g)%Z)))
          (tracks_of g)) metaGroups ∧
    identity <$> runtimeTracks =
      flat_map (λ g,
        imap (λ i _,
          (createTrackId (protos.id g) (Z.of_nat i),
           bool_decide (0 < protos.numPostprocess g)%Z))
          (tracks_of g)) metaGroups ∧
    length runtimeTracks = length (flat_map tracks_of metaGroups).
Proof.
  intros Hfit.
  assert (Forall overlays_safe metaGroups) as Hsafe
    by (eapply Forall_impl; [exact Hfit|exact overlays_fit_safe]).
  destruct (createRuntimeTracks_from_ok getDistance base base_set_gndAlt base_set_airspaces
              metaGroups [] Hsafe) as (r & Hr & Hbase).
  assert (base <$> r =
      flat_map (λ g,
        imap (λ i protoTrack,
          base (protoToRuntimeTrack getDistance
                  (createTrackId (protos.id g) (Z.of_nat i)) protoTrack
                  (bool_decide (0 < protos.numPostprocess g)%Z)))
          (tracks_of g)) metaGroups) as Hbase'.
  { rewrite Hbase. clear. induction metaGroups as [|g metaGroups IH]; [reflexivity|].
    cbn [flat_map]. rewrite IH. f_equal. rewrite fmap_imap.
    apply imap_ext. intros i p _. cbn. by rewrite gtb_0_decide. }
  exists r. split_and!; [exact Hr|exact Hbase'| |].
  - transitivity (identity <$> (base <$> r)).
    { rewrite <- list_fmap_compose. apply list_fmap_ext. intros _ t _. reflexivity. }
    rewrite Hbase'. clear. induction metaGroups as [|g metaGroups IH]; [reflexivity|].
    cbn [flat_map]. rewrite fmap_app, IH. f_equal. rewrite fmap_imap.
    apply imap_ext. intros i p _. cbn [compose].
    rewrite identity_base. apply identity_protoToRuntimeTrack.
  - rewrite <- (length_fmap base), Hbase'. clear.
    induction metaGroups as [|g metaGroups IH]; [reflexivity|].
    cbn [flat_map]. by rewrite !length_app, IH, length_imap.
Qed.

Lemma sample_groups_fit : Forall overlays_fit [bare_group; sample_group; bare_group].
Proof. repeat constructor; cbn; lia. Qed.

Lemma createRuntimeTracks_one_track_per_trajectory_witness :
  Forall overlays_fit [bare_group; sample_group; bare_group] ∧
  ∃ runtimeTracks,
    createRuntimeTracks grid_distance [bare_group; sample_group; bare_group]
      = Ok runtimeTracks ∧
    identity <$> runtimeTracks = [("42-0"%string, true); ("42-1"%string, true)].
Proof.
  split; [exact sample_groups_fit|].
  destruct (createRuntimeTracks_one_track_per_trajectory grid_distance
              [bare_group; sample_group; bare_group] sample_groups_fit)
    as (r & Hr & _ & Hid & _).
  exists r. split; [exact Hr|]. rewrite Hid. reflexivity.
Defined.

(** C10. The overlay entries of a group are merged into its tracks by
    position, with no bounds check.  An entry met at an index with no track
    is passed an undefined track, which [addAirspaces] always dereferences
    and [addGroundAltitude] dereferences when the entry carries its array;
    so, for groups whose ground altitude entries carry their arrays,
    [createRuntimeTracks] returns when every overlay container has at most
    as many entries as the group has tracks, and throws a [TypeError]
    otherwise. *)
Theorem overlays_must_fit (getDistance : LatLon.t → LatLon.t → num)
    (metaGroups : list protos.MetaTrackGroup) :
  Forall arrays_present metaGroups →
  (∀ gndAlt, is_Some (protos.altitudes gndAlt) →
             addGroundAltitude None gndAlt = Throw TypeError) ∧
  (∀ airspaces, addAirspaces None airspaces = Throw TypeError) ∧
  (Forall overlays_fit metaGroups →
   ∃ runtimeTracks, createRuntimeTracks getDistance metaGroups = Ok runtimeTracks) ∧
  (¬ Forall overlays_fit metaGroups →
   createRuntimeTracks getDistance metaGroups = Throw TypeError).
Proof.
  intros Harrays. split_and!.
  - intros gndAlt [altitudes Halt]. unfold addGroundAltitude. by rewrite Halt.
  - reflexivity.
  - intros Hfit.
    destruct (createRuntimeTracks_from_ok getDistance base base_set_gndAlt base_set_airspaces
                metaGroups []) as (r & Hr & _).
    { eapply Forall_impl; [exact Hfit|exact overlays_fit_safe]. }
    by exists r.
  - intros Hmisfit. apply createRuntimeTracks_from_throw.
    apply not_Forall_Exists in Hmisfit; [|intros g; unfold overlays_fit; apply _].
    apply Exists_exists in Hmisfit as (g & Hg & Hbad).
    apply Exists_exists. exists g. split; [exact Hg|].
    apply overlays_misfit; [|exact Hbad].
    rewrite Forall_forall in Harrays. by apply Harrays.
Qed.

Lemma overlays_must_fit_witness :
  Forall arrays_present [sample_group; orphan_group] ∧
  ¬ Forall overlays_fit [sample_group; orphan_group] ∧
  createRuntimeTracks grid_distance [sample_group; orphan_group] = Throw TypeError.
Proof.
  assert (Forall arrays_present [sample_group; orphan_group]) as Harrays.
  { repeat constructor. cbn. by eexists. }
  assert (¬ Forall overlays_fit [sample_group; orphan_group]) as Hmisfit.
  { intros Hfit. apply Forall_cons in Hfit as [_ Hfit].
    apply Forall_cons in Hfit as [[_ Hair] _]. cbn in Hair. lia. }
  split; [exact Harrays|]. split; [exact Hmisfit|].
  exact (proj2 (proj2 (proj2 (overlays_must_fit grid_distance _ Harrays))) Hmisfit).
Defined.

(** * Further properties of the code *)

(** ** The ends of a trajectory *)

Lemma add_times_zero (k : nat) : add_times k zero zero = zero.
Proof. induction k as [|k IH]; [reflexivity|exact IH]. Qed.

Lemma accumulate_zero_steps (steps : nat) (limit stepDist : num) :
  ((accumulate steps limit stepDist zero zero zero).2 >? zero) = false.
Proof. by apply accumulate_not_positive. Qed.

Lemma window_steps_last (N cap : nat) : window_steps N cap (N - 1) = 0%nat.
Proof. unfold window_steps. lia. Qed.

Lemma vx_spec_first (getDistance : LatLon.t → LatLon.t → num) (track : protos.Track) :
  vx_spec getDistance track 0 = zero.
Proof.
  unfold vx_spec, vx_totals. cbn [distX_at step_at].
  pose proof (accumulate_zero_steps
    (window_steps (length (protos.lat track)) 65 0) (of_Z 60) zero) as H.
  destruct (accumulate _ _ _ _ _ _) as [D T]. cbn [snd] in H. by rewrite H.
Qed.

Lemma vz_spec_first (alt timeSec : list num) : vz_spec alt timeSec 0 = zero.
Proof.
  unfold vz_spec, vz_totals. cbn [step_at].
  pose proof (accumulate_zero_steps (window_steps (length alt) 35 0) (of_Z 30) zero) as H.
  destruct (accumulate _ _ _ _ _ _) as [D T]. cbn [snd] in H. by rewrite H.
Qed.

Lemma vx_spec_last (getDistance : LatLon.t → LatLon.t → num) (track : protos.Track) :
  vx_spec getDistance track (length (protos.lat track) - 1) = zero.
Proof. unfold vx_spec, vx_totals. by rewrite window_steps_last. Qed.

Lemma vz_spec_last (alt timeSec : list num) :
  vz_spec alt timeSec (length alt - 1) = zero.
Proof. unfold vz_spec, vz_totals. by rewrite window_steps_last. Qed.

(** X1. The first and the last fix of a trajectory always get speed 0,
    horizontally and vertically, whatever the positions and times: the first
    step values are 0, and the window of the last fix has no step. *)
Theorem speeds_at_both_ends_are_zero (getDistance : LatLon.t → LatLon.t → num)
    (id : string) (differentialTrack : protos.Track) (isPostProcessed : bool) :
  let track := diffDecodeTrack differentialTrack in
  let rt := protoToRuntimeTrack getDistance id differentialTrack isPostProcessed in
  ((0 < length (protos.lat track))%nat →
   RuntimeTrack.vx rt !! 0%nat = Some zero ∧
   RuntimeTrack.vx rt !! (length (protos.lat track) - 1)%nat = Some zero) ∧
  ((0 < length (protos.alt track))%nat →
   RuntimeTrack.vz rt !! 0%nat = Some zero ∧
   RuntimeTrack.vz rt !! (length (protos.alt track) - 1)%nat = Some zero).
Proof.
  intros track rt. subst rt. rewrite protoToRuntimeTrack_tabulate. fold track.
  cbn [RuntimeTrack.vx RuntimeTrack.vz]. split; intros HN.
  - rewrite !lookup_tabulate by lia. by rewrite vx_spec_first, vx_spec_last.
  - rewrite !lookup_tabulate by lia. by rewrite vz_spec_first, vz_spec_last.
Qed.

Lemma speeds_at_both_ends_are_zero_witness :
  let track := diffDecodeTrack sample_wire in
  let rt := protoToRuntimeTrack grid_distance "1-0" sample_wire true in
  (0 < length (protos.lat track))%nat ∧ (0 < length (protos.alt track))%nat ∧
  RuntimeTrack.vx rt !! 3%nat = Some zero ∧ RuntimeTrack.vz rt !! 0%nat = Some zero.
Proof.
  intros track rt.
  assert (0 < length (protos.lat track))%nat as HN by (vm_compute; lia).
  assert (0 < length (protos.alt track))%nat as HA by (vm_compute; lia).
  destruct (speeds_at_both_ends_are_zero grid_distance "1-0" sample_wire true)
    as [Hvx Hvz].
  split; [exact HN|]. split; [exact HA|].
  split; [exact (proj2 (Hvx HN))|exact (proj1 (Hvz HA))].
Defined.

(** X2. An empty trajectory gives a track with empty speed and placeholder
    arrays, every maximum [-Infinity], every minimum [Infinity], and
    [maxDistance] 0 (the distance array always holds its initial 0). *)
Theorem empty_trajectory_extrema (getDistance : LatLon.t → LatLon.t → num)
    (id : string) (differentialTrack : protos.Track) (isPostProcessed : bool) :
  let track := diffDecodeTrack differentialTrack in
  let rt := protoToRuntimeTrack getDistance id differentialTrack isPostProcessed in
  protos.lat track = [] → protos.lon track = [] →
  protos.alt track = [] → protos.timeSec track = [] →
  (RuntimeTrack.vx rt = [] ∧ RuntimeTrack.vz rt = [] ∧
   RuntimeTrack.gndAlt rt = [] ∧ RuntimeTrack.heading rt = []) ∧
  (RuntimeTrack.maxAlt rt = NegInf ∧ RuntimeTrack.maxLat rt = NegInf ∧
   RuntimeTrack.maxLon rt = NegInf ∧ RuntimeTrack.maxTimeSec rt = NegInf ∧
   RuntimeTrack.maxVx rt = NegInf ∧ RuntimeTrack.maxVz rt = NegInf) ∧
  (RuntimeTrack.minAlt rt = PosInf ∧ RuntimeTrack.minLat rt = PosInf ∧
   RuntimeTrack.minLon rt = PosInf ∧ RuntimeTrack.minTimeSec rt = PosInf ∧
   RuntimeTrack.minVx rt = PosInf ∧ RuntimeTrack.minVz rt = PosInf) ∧
  RuntimeTrack.maxDistance rt = zero.
Proof.
  intros track rt Hlat Hlon Halt Htime. subst rt.
  rewrite protoToRuntimeTrack_tabulate. fold track.
  rewrite Hlat, Hlon, Halt, Htime. cbn. done.
Qed.

Lemma empty_trajectory_extrema_witness :
  let wire := {| protos.pilot := "pilot"; protos.lat := []; protos.lon := [];
                 protos.alt := []; protos.timeSec := [] |} in
  protos.lat (diffDecodeTrack wire) = [] ∧
  RuntimeTrack.maxAlt (protoToRuntimeTrack grid_distance "1-0" wire true) = NegInf ∧
  RuntimeTrack.maxDistance (protoToRuntimeTrack grid_distance "1-0" wire true) = zero.
Proof.
  intros wire. split; [reflexivity|].
  destruct (empty_trajectory_extrema grid_distance "1-0" wire true
              eq_refl eq_refl eq_refl eq_refl) as (_ & (Hmax & _) & _ & Hdist).
  split; [exact Hmax|exact Hdist].
Defined.

(** ** What a speed entry depends on *)

(** X3. The speeds at index [i] depend only on the length of the
    trajectory and on fixes [i-1] and [i]: two trajectories of the same
    length that agree on these two fixes (position and time for [vx],
    altitude and time for [vz]) have the same entry at [i], whatever the
    fixes after [i] are. *)
Theorem speed_depends_on_one_step (getDistance : LatLon.t → LatLon.t → num)
    (id id' : string) (wire wire' : protos.Track) (b b' : bool) (i : nat) :
  let track := diffDecodeTrack wire in
  let track' := diffDecodeTrack wire' in
  let rt := protoToRuntimeTrack getDistance id wire b in
  let rt' := protoToRuntimeTrack getDistance id' wire' b' in
  get (protos.timeSec track) i = get (protos.timeSec track') i →
  get (protos.timeSec track) (i - 1) = get (protos.timeSec track') (i - 1) →
  (length (protos.lat track) = length (protos.lat track') →
   point track i = point track' i → point track (i - 1) = point track' (i - 1) →
   RuntimeTrack.vx rt !! i = RuntimeTrack.vx rt' !! i) ∧
  (length (protos.alt track) = length (protos.alt track') →
   get (protos.alt track) i = get (protos.alt track') i →
   get (protos.alt track) (i - 1) = get (protos.alt track') (i - 1) →
   RuntimeTrack.vz rt !! i = RuntimeTrack.vz rt' !! i).
Proof.
  intros track track' rt rt' Ht Ht'. subst rt rt'.
  rewrite !protoToRuntimeTrack_tabulate. fold track track'.
  cbn [RuntimeTrack.vx RuntimeTrack.vz].
  assert (step_at (protos.timeSec track) i = step_at (protos.timeSec track') i) as Hstep.
  { destruct i as [|j]; [reflexivity|]. cbn [step_at].
    replace (S j - 1)%nat with j in Ht' by lia. by rewrite Ht, Ht'. }
  split.
  - intros Hlen Hp Hp'. rewrite <- Hlen, !list_lookup_fmap.
    destruct (seq 0 (length (protos.lat track)) !! i) as [j|] eqn:Hj; [|reflexivity].
    apply lookup_seq in Hj as [-> _]. cbn [fmap option_fmap option_map Nat.add]. f_equal.
    unfold vx_spec, vx_totals. rewrite <- Hlen, Hstep.
    replace (distX_at getDistance track' i) with (distX_at getDistance track i);
      [reflexivity|].
    destruct i as [|j]; [reflexivity|]. cbn [distX_at].
    replace (S j - 1)%nat with j in Hp' by lia. by rewrite Hp, Hp'.
  - intros Hlen Ha Ha'. rewrite <- Hlen, !list_lookup_fmap.
    destruct (seq 0 (length (protos.alt track)) !! i) as [j|] eqn:Hj; [|reflexivity].
    apply lookup_seq in Hj as [-> _]. cbn [fmap option_fmap option_map Nat.add]. f_equal.
    unfold vz_spec, vz_totals. rewrite <- Hlen, Hstep.
    replace (step_at (protos.alt track') i) with (step_at (protos.alt track) i);
      [reflexivity|].
    destruct i as [|j]; [reflexivity|]. cbn [step_at].
    replace (S j - 1)%nat with j in Ha' by lia. by rewrite Ha, Ha'.
Qed.

Lemma speed_depends_on_one_step_witness :
  let wire' := diffEncodeTrack
    {| protos.pilot := "other";
       protos.lat := Fin <$> [10; 10; 11; 12]%Q;
       protos.lon := Fin <$> [0; 1 # 1000; 5; 7]%Q;
       protos.alt := Fin <$> [100; 110; 300; 0]%Q;
       protos.timeSec := Fin <$> [0; 10; 11; 500]%Q |} in
  let track := diffDecodeTrack sample_wire in
  let track' := diffDecodeTrack wire' in
  (get (protos.timeSec track) 1 = get (protos.timeSec track') 1 ∧
   get (protos.timeSec track) (1 - 1) = get (protos.timeSec track') (1 - 1) ∧
   length (protos.lat track) = length (protos.lat track') ∧
   point track 1 = point track' 1 ∧ point track (1 - 1) = point track' (1 - 1)) ∧
  RuntimeTrack.vx (protoToRuntimeTrack grid_distance "1-0" sample_wire true) !! 1%nat =
  RuntimeTrack.vx (protoToRuntimeTrack grid_distance "2-0" wire' false) !! 1%nat.
Proof.
  intros wire' track track'.
  assert (get (protos.timeSec track) 1 = get (protos.timeSec track') 1) as Ht
    by (vm_compute; reflexivity).
  assert (get (protos.timeSec track) (1 - 1) = get (protos.timeSec track') (1 - 1)) as Ht'
    by (vm_compute; reflexivity).
  assert (length (protos.lat track) = length (protos.lat track')) as Hlen
    by (vm_compute; reflexivity).
  assert (point track 1 = point track' 1) as Hp by (vm_compute; reflexivity).
  assert (point track (1 - 1) = point track' (1 - 1)) as Hp' by (vm_compute; reflexivity).
  split; [by repeat split|].
  exact (proj1 (speed_depends_on_one_step grid_distance "1-0" "2-0" sample_wire wire'
                  true false 1 Ht Ht') Hlen Hp Hp').
Defined.

(** ** When [createRuntimeTracks] throws *)

(** Each ground altitude list is either safe for [n] tracks or has an
    entry with an array at an index from [n] on. *)
Lemma ground_entries_dichotomy (entries : list protos.GroundAltitude) (n : nat) :
  (∀ i e, entries !! i = Some e → is_Some (protos.altitudes e) → (i < n)%nat) ∨
  (∃ j e, entries !! j = Some e ∧ is_Some (protos.altitudes e) ∧ (n ≤ j)%nat).
Proof.
  induction entries as [|x entries IH] using rev_ind.
  - left. intros i e Hi. by rewrite lookup_nil in Hi.
  - destruct IH as [Hsafe|(j & e & Hj & He & Hn)].
    + destruct (decide (is_Some (protos.altitudes x) ∧ (n ≤ length entries)%nat))
        as [[Hx Hlen]|Hok].
      * right. exists (length entries), x. split_and!; [|done|done].
        by rewrite lookup_app_r, Nat.sub_diag by lia.
      * left. intros i e Hi He.
        destruct (decide (i < length entries)%nat) as [Hlt|Hge].
        -- rewrite lookup_app_l in Hi by done. by apply (Hsafe i e).
        -- rewrite lookup_app_r in Hi by lia.
           destruct (i - length entries)%nat as [|k] eqn:Hk; [|by destruct k].
           injection Hi as ->. destruct (decide (i < n)%nat); [done|].
           exfalso. apply Hok. split; [done|lia].
    + right. exists j, e. split_and!; [|done|done].
      apply lookup_app_l_Some. exact Hj.
Qed.

Lemma overlays_dichotomy (g : protos.MetaTrackGroup) :
  overlays_safe g ∨ reaches_undefined g.
Proof.
  unfold overlays_safe, reaches_undefined.
  destruct (ground_entries_dichotomy (groundAltitudes_of g) (length (tracks_of g)))
    as [Hsafe|Hbad]; [|by right; left].
  destruct (decide (length (airspaces_of g) ≤ length (tracks_of g))%nat);
    [by left|right; right; lia].
Qed.

Lemma groups_dichotomy (metaGroups : list protos.MetaTrackGroup) :
  Forall overlays_safe metaGroups ∨ Exists reaches_undefined metaGroups.
Proof.
  induction metaGroups as [|g metaGroups IH]; [by left|].
  destruct (overlays_dichotomy g) as [Hg|Hg]; [|right; by left].
  destruct IH as [IH|IH]; [left; by constructor|right; by right].
Qed.

(** X7. [createRuntimeTracks] either returns, and then no overlay entry of
    any group reaches an undefined track (a ground altitude entry without
    array is skipped even where there is no track) and the result has one
    track per decoded trajectory; or it throws a [TypeError], and then some
    group has an airspaces entry, or a ground altitude entry that carries
    its array, at an index with no track. *)
Theorem createRuntimeTracks_returns_or_throws (getDistance : LatLon.t → LatLon.t → num)
    (metaGroups : list protos.MetaTrackGroup) :
  (Forall overlays_safe metaGroups ∧
   ∃ runtimeTracks,
     createRuntimeTracks getDistance metaGroups = Ok runtimeTracks ∧
     length runtimeTracks = length (flat_map tracks_of metaGroups)) ∨
  (Exists reaches_undefined metaGroups ∧
   createRuntimeTracks getDistance metaGroups = Throw TypeError).
Proof.
  destruct (groups_dichotomy metaGroups) as [Hsafe|Hbad].
  - left. split; [exact Hsafe|].
    destruct (createRuntimeTracks_from_ok getDistance (λ _ : RuntimeTrack.t, ())
                (λ _ _, eq_refl) (λ _ _, eq_refl) metaGroups [] Hsafe) as (r & Hr & Hlen).
    exists r. split; [exact Hr|].
    apply (f_equal length) in Hlen. rewrite length_fmap in Hlen. rewrite Hlen. clear.
    induction metaGroups as [|g metaGroups IH]; [reflexivity|].
    cbn [flat_map]. by rewrite !length_app, IH, length_fmap, length_imap.
  - right. split; [exact Hbad|].
    by apply createRuntimeTracks_from_throw.
Qed.

(** ** Batches compose *)

Section WithDistance.
Variable getDistance : LatLon.t → LatLon.t → num.

Lemma createGroupTracks_append (runtimeTracks : list RuntimeTrack.t)
    (g : protos.MetaTrackGroup) :
  createGroupTracks getDistance runtimeTracks g =
  (rtTracks ← createGroupTracks getDistance [] g; Ok (runtimeTracks ++ rtTracks)).
Proof.
  rewrite !createGroupTracks_steps.
  destruct (forEach _ (groundAltitudes_of g) _) as [rt1|e]; cbn [mbind result_bind]; [|done].
  destruct (forEach _ (airspaces_of g) rt1) as [rt2|e]; cbn [mbind result_bind]; done.
Qed.

Lemma createRuntimeTracks_from_append (metaGroups : list protos.MetaTrackGroup)
    (runtimeTracks : list RuntimeTrack.t) :
  createRuntimeTracks_from getDistance runtimeTracks metaGroups =
  (rtTracks ← createRuntimeTracks_from getDistance [] metaGroups;
   Ok (runtimeTracks ++ rtTracks)).
Proof.
  revert runtimeTracks. induction metaGroups as [|g metaGroups IH]; intros runtimeTracks.
  - cbn. by rewrite app_nil_r.
  - cbn [createRuntimeTracks_from]. rewrite createGroupTracks_append.
    rewrite (createGroupTracks_append []).
    destruct (createGroupTracks getDistance [] g) as [rt1|e];
      cbn [mbind result_bind app]; [|done].
    rewrite IH, (IH rt1).
    destruct (createRuntimeTracks_from getDistance [] metaGroups) as [rt2|e];
      cbn [mbind result_bind]; [|done].
    by rewrite app_assoc.
Qed.

Lemma createRuntimeTracks_from_app (gs1 gs2 : list protos.MetaTrackGroup)
    (runtimeTracks : list RuntimeTrack.t) :
  createRuntimeTracks_from getDistance runtimeTracks (gs1 ++ gs2) =
  (rtTracks ← createRuntimeTracks_from getDistance runtimeTracks gs1;
   createRuntimeTracks_from getDistance rtTracks gs2).
Proof.
  revert runtimeTracks. induction gs1 as [|g gs1 IH]; intros runtimeTracks; [reflexivity|].
  cbn [app createRuntimeTracks_from].
  destruct (createGroupTracks getDistance runtimeTracks g) as [rt1|e];
    cbn [mbind result_bind]; [apply IH|done].
Qed.

End WithDistance.

(** X8. A batch can be split: the tracks of [gs1 ++ gs2] are the tracks of
    [gs1] followed by the tracks of [gs2], and the call throws as soon as one
    of the two parts does; no group depends on the groups before it. *)
Theorem createRuntimeTracks_of_concatenation (getDistance : LatLon.t → LatLon.t → num)
    (gs1 gs2 : list protos.MetaTrackGroup) :
  createRuntimeTracks getDistance (gs1 ++ gs2) =
  (r1 ← createRuntimeTracks getDistance gs1;
   r2 ← createRuntimeTracks getDistance gs2;
   Ok (r1 ++ r2)).
Proof.
  unfold createRuntimeTracks. rewrite createRuntimeTracks_from_app.
  destruct (createRuntimeTracks_from getDistance [] gs1) as [r1|e];
    cbn [mbind result_bind]; [|done].
  apply createRuntimeTracks_from_append.
Qed.

(** ** Ids that do not come back *)

Section LostIds.
Local Open Scope string_scope.

Lemma rev_nil (s acc : string) : Str.rev s acc = "" → s = "" ∧ acc = "".
Proof.
  revert acc. induction s as [|c s IH]; intros acc; [done|].
  cbn [Str.rev]. intros H. by destruct (IH _ H).
Qed.

Lemma rev_all_zeros (s acc : string) :
  all_zeros (Str.rev s acc) = all_zeros s && all_zeros acc.
Proof.
  revert acc. induction s as [|c s IH]; intros acc; [reflexivity|].
  cbn [Str.rev]. rewrite IH. cbn [all_zeros].
  destruct (Ascii.eqb c "0"), (all_zeros s), (all_zeros acc); reflexivity.
Qed.

Lemma rev_strip_zeros_nil (s : string) : Str.rev_strip_zeros s = "" → all_zeros s = true.
Proof.
  induction s as [|c s IH]; [done|].
  destruct (Ascii.eqb_spec c "0") as [->|Hc].
  - cbn [Str.rev_strip_zeros all_zeros]. exact IH.
  - intros H. exfalso. revert H.
    destruct c as [[] [] [] [] [] [] [] []]; try discriminate. by destruct Hc.
Qed.

Lemma Number_from_zeros (s : string) : all_zeros s = true → Str.Number_from 0 s = 0%N.
Proof.
  induction s as [|c s IH]; [done|].
  cbn [all_zeros]. intros [Hc Hs]%andb_true_iff. apply Ascii.eqb_eq in Hc as ->.
  cbn [Str.Number_from]. exact (IH Hs).
Qed.

(** The digits of a positive number are not all zeros. *)
Lemma strip_digits_nonempty (n : N) :
  (0 < n)%N → Str.strip_trailing_zeros (Str.digits n) ≠ "".
Proof.
  intros Hn Hstrip. unfold Str.strip_trailing_zeros in Hstrip.
  apply rev_nil in Hstrip as [Hstrip _]. apply rev_strip_zeros_nil in Hstrip.
  rewrite rev_all_zeros, andb_true_r in Hstrip.
  pose proof (Number_digits n) as Hnum. unfold Str.Number in Hnum.
  rewrite (Number_from_zeros _ Hstrip) in Hnum. lia.
Qed.

(** In exponent form the first character is followed by a point or an
    [e]: no dash follows the leading digits. *)
Lemma match_exponent_form (d c : ascii) (rest : string) :
  c = "."%char ∨ c = "e"%char → Str.match_digits_dash (String d (String c rest)) = None.
Proof.
  intros Hc. unfold Str.match_digits_dash. cbn [Str.span_digits].
  assert (Str.is_digit c = false) as Hnd by (destruct Hc as [-> | ->]; reflexivity).
  rewrite Hnd. destruct (Str.is_digit d); [|reflexivity].
  destruct Hc as [-> | ->]; reflexivity.
Qed.

Lemma of_N_large_no_match (n : N) (rest : string) :
  (10 ^ 21 <= n)%N → Str.match_digits_dash (Str.of_N n ++ rest) = None.
Proof.
  intros Hn. unfold Str.of_N. rewrite (proj2 (N.ltb_ge _ _) Hn).
  pose proof (strip_digits_nonempty n) as Hne.
  destruct (Str.strip_trailing_zeros (Str.digits n)) as [|d frac].
  - exfalso. apply Hne; [|reflexivity]. 
    eapply N.lt_le_trans; [|exact Hn]. reflexivity.
  - destruct frac as [|c frac].
    + apply (match_exponent_form d "e"). by right.
    + apply (match_exponent_form d "."). by left.
Qed.

Lemma negative_no_match (s : string) : Str.match_digits_dash ("-" ++ s) = None.
Proof. reflexivity. Qed.

Lemma append_assoc (a b c : string) : (a ++ b) ++ c = a ++ (b ++ c).
Proof.
  induction a as [|x a IH]; [reflexivity|].
  change (String x ((a ++ b) ++ c) = String x (a ++ b ++ c)). by rewrite IH.
Qed.

(** X9. The group id comes back from a track id exactly for the natural
    numbers below [10^21]: for these [extractGroupId (createTrackId groupId
    groupIndex)] is [groupId]; for a negative group id (the id starts with
    the sign) and from [10^21] on (the id is in exponent form) it is [-1]. *)
Theorem extractGroupId_of_createTrackId (groupId groupIndex : Z) :
  extractGroupId (createTrackId groupId groupIndex) =
  if bool_decide (0 <= groupId < 10 ^ 21)%Z then groupId else (-1)%Z.
Proof.
  case_bool_decide as Hrange.
  - destruct Hrange as [Hlo Hhi]. unfold createTrackId, extractGroupId.
    assert (Str.of_Z groupId = Str.digits (Z.to_N groupId)) as ->.
    { unfold Str.of_Z. rewrite (proj2 (Z.ltb_ge _ _) Hlo).
      apply of_N_small. apply N2Z.inj_lt. rewrite Z2N.id by done.
      by rewrite N2Z.inj_pow. }
    rewrite match_digits_dash_Some
      by (apply digits_nonempty || apply digits_all_digits).
    rewrite Number_digits. by apply Z2N.id.
  - unfold extractGroupId, createTrackId, Str.of_Z.
    destruct (groupId <? 0)%Z eqn:Hneg; cbv iota.
    + rewrite append_assoc. by rewrite negative_no_match.
    + apply Z.ltb_ge in Hneg. rewrite of_N_large_no_match; [reflexivity|].
      apply N2Z.inj_le. rewrite Z2N.id by done. rewrite N2Z.inj_pow. 
      change (Z.of_N 10 ^ Z.of_N 21)%Z with (10 ^ 21)%Z. lia.
Qed.

End LostIds.

(** ** Airspaces through the codec *)

Lemma Qfloor_half (z : Z) : Qfloor (inject_Z z + (1 # 2)) = z.
Proof.
  pose proof (Qfloor_le (inject_Z z + (1 # 2))) as Hlo.
  pose proof (Qlt_floor (inject_Z z + (1 # 2))) as Hhi.
  set (f := Qfloor (inject_Z z + (1 # 2))) in *.
  assert (inject_Z f < inject_Z (z + 1))%Q as Hlt.
  { rewrite inject_Z_plus. change (inject_Z 1) with 1%Q. lra. }
  assert (inject_Z z < inject_Z (f + 1))%Q as Hgt by lra.
  rewrite <- Zlt_Qlt in Hlt, Hgt. lia.
Qed.

(** Rounding leaves an integer alone. *)
Lemma quantize_integer (x : Q) (z : Z) :
  (x == inject_Z z)%Q → math.quantize true (Fin x) = Fin (inject_Z z).
Proof.
  intros Hx. cbn [math.quantize Math_round]. unfold of_Z. do 2 f_equal.
  rewrite <- (Qfloor_half z). apply Qfloor_comp. by rewrite Hx.
Qed.

(** On integers the codec with scale 1 loses nothing: the running sum of
    the decoder is the previous value of the encoder at every step. *)
Lemma codec_integers (values : list num) :
  Forall integer_valued values →
  ∀ (prev : option Q) (sum : Q) (i : nat) (v : Q),
    (sum == prev_value prev)%Q → (∃ z, prev_value prev == inject_Z z)%Q →
    values !! i = Some (Fin v) →
    ∃ w : Q,
      math.decode_from (Fin sum) (of_Z 1)
        (math.encode_from (Fin <$> prev) (of_Z 1) true values) !! i = Some (Fin w) ∧
      (w == v)%Q.
Proof.
  intros Hint. induction Hint as [|x rest Hx Hrest IH];
    intros prev sum i v Hsum [zp Hzp] Hi; [done|].
  destruct x as [a| | |]; try done. destruct Hx as [za Hza].
  cbn [math.encode_from math.decode_from].
  set (delta := match Fin <$> prev with None => Fin a | Some p => Fin a - p end).
  assert (∃ d, delta = Fin d ∧ (d == a - prev_value prev)%Q) as (d & -> & Hd).
  { subst delta. destruct prev as [p|]; cbn.
    - eexists. split; [reflexivity|]. apply Qred_correct.
    - exists a. split; [reflexivity|]. lra. }
  unfold of_Z. cbn [mul].
  rewrite (quantize_integer (Qred (d * inject_Z 1)) (za - zp)).
  2:{ rewrite Qred_correct, Hd, Hza, Hzp. unfold Zminus.
      rewrite inject_Z_plus, inject_Z_opp. change (inject_Z 1) with 1%Q. lra. }
  cbn [add]. change (Fin (inject_Z 1)) with (Fin 1). rewrite div_fin by lra.
  assert (Qred (sum + inject_Z (za - zp)) == a)%Q as Hnext.
  { rewrite Qred_correct, Hsum, Hzp, Hza. unfold Zminus.
    rewrite inject_Z_plus, inject_Z_opp. lra. }
  destruct i as [|i].
  - injection Hi as ->. eexists. split; [reflexivity|].
    rewrite Qred_correct, Hnext. unfold Qdiv. change (/ 1)%Q with 1%Q. lra.
  - apply (IH (Some a) _ i v Hnext); [|exact Hi]. by exists za.
Qed.

Lemma roundtrip_integers (values : list num) :
  Forall integer_valued values →
  Forall2 eqv values
    (math.diffDecodeArray
       (math.diffEncodeArray values math.default_scale math.default_round)
       math.default_scale).
Proof.
  intros Hint. apply Forall2_same_length_lookup_2.
  - by rewrite diffDecodeArray_length, diffEncodeArray_length.
  - intros i x y Hx Hy.
    pose proof (Forall_lookup_1 _ _ _ _ Hint Hx) as Hxi.
    destruct x as [v| | |]; try done.
    destruct (codec_integers values Hint None 0 i v) as (w & Hw & Hwv);
      [reflexivity|by exists 0%Z|exact Hx|].
    unfold math.diffDecodeArray, math.diffEncodeArray, math.default_scale,
      math.default_round in Hy.
    change zero with (Fin 0) in Hy. change (@None num) with (Fin <$> @None Q) in Hy.
    rewrite Hw in Hy. injection Hy as <-. cbn [eqv]. by symmetry.
Qed.

(** X10. With the codec of [./math] as the specification describes it,
    encoding and then decoding airspaces gives back integer entry and exit
    times exactly, also when the exit times are not increasing (negative
    deltas), and leaves the other fields alone. *)
Theorem airspaces_roundtrip_on_integers (asp : protos.Airspaces) :
  Forall integer_valued (protos.startSec asp) →
  Forall integer_valued (protos.endSec asp) →
  let back := diffDecodeAirspaces (diffEncodeAirspaces asp) in
  protos.name back = protos.name asp ∧
  Forall2 eqv (protos.startSec asp) (protos.startSec back) ∧
  Forall2 eqv (protos.endSec asp) (protos.endSec back).
Proof.
  intros Hstart Hend back. subst back.
  unfold diffDecodeAirspaces, diffEncodeAirspaces.
  cbn [protos.name protos.startSec protos.endSec].
  split_and!; [reflexivity|by apply roundtrip_integers|by apply roundtrip_integers].
Qed.

Lemma airspaces_roundtrip_on_integers_witness :
  Forall integer_valued (protos.startSec sample_airspaces) ∧
  Forall integer_valued (protos.endSec sample_airspaces) ∧
  Forall2 eqv (protos.endSec sample_airspaces)
    (protos.endSec (diffDecodeAirspaces (diffEncodeAirspaces sample_airspaces))).
Proof.
  assert (Forall integer_valued (protos.startSec sample_airspaces)) as Hstart.
  { repeat constructor; [by exists 5%Z|by exists 10%Z]. }
  assert (Forall integer_valued (protos.endSec sample_airspaces)) as Hend.
  { repeat constructor; [by exists 9%Z|by exists (-2)%Z]. }
  split; [exact Hstart|]. split; [exact Hend|].
  exact (proj2 (proj2 (airspaces_roundtrip_on_integers sample_airspaces Hstart Hend))).
Defined.
